(** * The bot supervisor of [index.js], as a state machine

    [index.js] is an express server that keeps one forked [bot.js] worker per
    user.  Its whole state is the [users] directory on disk, the [processes]
    object (uid -> child handle) and the listeners it installed on the
    children it forked.  Every route handler and every child listener runs to
    completion before the next one starts (one JavaScript thread), so the
    server is a deterministic transition function on that state, driven by
    the events the runtime delivers: HTTP requests, chunks on a child's
    stdout or stderr, and a child's exit.

    What the runtime decides is an input of the transition: the clock
    ([new Date().toISOString()]), whether [child.kill()] returns or throws,
    the data and the exit code of a child.  [JSON.parse], [JSON.stringify]
    and [String.prototype.trim] are library functions; they are the fields of
    the class [Runtime].

    The limits of the model.  A uid is a string.  The model is exact for the
    uids that are [plain]: one entry of [USERS_DIR] by name (no slash, not a
    dot entry) and not the name of a property every object inherits, so that
    the directory of the uid is the entry of that name and [processes[uid]]
    is the own property.  A property that needs this has [plain],
    [plain_start] or [plain_reachable] among its hypotheses.  Paths are
    POSIX paths.  An entry of [USERS_DIR] is a directory with at most the
    three files the server writes, and only the server writes them.  A file
    system call fails only where a directory is missing; [fork] does not
    fail. *)

From stdpp Require Import gmap strings list fin_maps pretty.

(** ** Values of a request body *)

(** A value of the JSON body, as [express.json()] hands it over.  Numbers are
    kept as integers: the server only tests them for truthiness. *)
#[local] Unset Elimination Schemes.
Inductive json : Type :=
  | JNull
  | JBool (b : bool)
  | JNum (n : Z)
  | JStr (s : string)
  | JArr (items : list json)
  | JObj (fields : list (string * json)).
#[local] Set Elimination Schemes.

(** [!v] is false exactly on the truthy values. *)
Definition truthy (v : json) : bool :=
  match v with
  | JNull => false
  | JBool b => b
  | JNum n => negb (n =? 0)%Z
  | JStr s => negb (String.eqb s EmptyString)
  | JArr _ | JObj _ => true
  end.

(** The library functions the server calls.  [JSON_parse] is [None] where
    [JSON.parse] throws a SyntaxError. *)
Class Runtime := {
  JSON_parse : string -> option json;
  JSON_stringify : json -> string;
  trim : string -> string
}.

(** The line feed that ends every log line. *)
Definition nl : string := String (Ascii.ascii_of_nat 10) EmptyString.

(** ** The state *)

(** One directory below [USERS_DIR]: the three files the server writes. *)
Record UserDir := mkUserDir {
  appstate_json : option string;
  admin_txt : option string;
  logs_txt : option string
}.

Definition emptyDir : UserDir := mkUserDir None None None.

Definition set_logs (d : UserDir) (t : string) : UserDir :=
  mkUserDir (appstate_json d) (admin_txt d) (Some t).

(** A forked child together with what its listeners closed over: [admin]
    (and with it [userDir]).  [child_exited] records that the runtime has
    delivered the child's exit event. *)
Record Child := mkChild {
  child_admin : string;
  child_exited : bool
}.

(** The result of one call of [child.kill()]: it returns whether the signal
    was delivered, or it throws. *)
Inductive KillOutcome : Type :=
  | KillReturned (delivered : bool)
  | KillThrew.

(** What the server does to the world outside its own data, in the order it
    does it. *)
Inductive Effect : Type :=
  | Kill (pid : nat) (outcome : KillOutcome)
  | Fork (pid : nat) (admin : string)
  | Emit (room : string) (text : string).

Record World := mkWorld {
  users : gmap string UserDir;     (* the entries of USERS_DIR *)
  processes : gmap string nat;     (* let processes = {} *)
  children : list Child;           (* every child forked so far; a handle is an index *)
  effects : list Effect
}.

Record Response := mkResponse {
  status : nat;
  body : string
}.

(** [res.send] without [res.status] answers 200. *)
Definition send (text : string) : Response := mkResponse 200 text.

Definition MAX_USERS : nat := 20.

(** The state right after the server has started on a [users] directory left
    by earlier runs. *)
Definition boot (disk : gmap string UserDir) : World :=
  mkWorld disk ∅ [] [].

Definition with_users (w : World) (u : gmap string UserDir) : World :=
  mkWorld u (processes w) (children w) (effects w).

Definition with_processes (w : World) (p : gmap string nat) : World :=
  mkWorld (users w) p (children w) (effects w).

Definition effect (w : World) (e : Effect) : World :=
  mkWorld (users w) (processes w) (children w) (effects w ++ [e]).

(** ** The file system calls *)

(** [fs.existsSync(path.join(USERS_DIR, uid, 'appstate.json'))] *)
Definition exists_appstate (disk : gmap string UserDir) (uid : string) : bool :=
  match disk !! uid with
  | Some d => bool_decide (is_Some (appstate_json d))
  | None => false
  end.

(** [fs.readdirSync(USERS_DIR)] *)
Definition readdir (disk : gmap string UserDir) : list string :=
  (map_to_list disk).*1.

(** [fs.readdirSync(USERS_DIR).filter(uid => fs.existsSync(...))] *)
Definition currentUsers (disk : gmap string UserDir) : list string :=
  List.filter (exists_appstate disk) (readdir disk).

(** [currentUsers.includes(String(admin))] *)
Definition includes (l : list string) (x : string) : bool :=
  bool_decide (x ∈ l).

(** [if (!fs.existsSync(userDir)) fs.mkdirSync(userDir, { recursive: true })] *)
Definition mkdir_if_missing (disk : gmap string UserDir) (uid : string)
  : gmap string UserDir :=
  match disk !! uid with
  | Some _ => disk
  | None => <[uid := emptyDir]> disk
  end.

(** [fs.appendFileSync(logFile, text + "\n")] inside [appendLog]'s
    try/catch: the file is created when it is missing; when the directory is
    missing the call throws and [appendLog] swallows it. *)
Definition appendLog (userDir : string) (text : string)
    (disk : gmap string UserDir) : gmap string UserDir :=
  match disk !! userDir with
  | Some d =>
      <[userDir := set_logs d (default EmptyString (logs_txt d) +:+ text +:+ nl)]> disk
  | None => disk
  end.

(** ** The messages *)

Definition session_marker (now : string) : string :=
  "📂 Logs started at " +:+ now +:+ nl.

(** The template literal prints a numeric code in decimal and [null] (the
    child was ended by a signal) as the word null. *)
Definition show_code (code : option Z) : string :=
  match code with
  | Some c => pretty c
  | None => "null"
  end.

Definition exit_marker (code : option Z) (now : string) : string :=
  "🔴 Bot exited with code " +:+ show_code code +:+ " at " +:+ now.

Definition msg_missing_start : string := "❌ Admin UID or AppState missing.".
Definition msg_limit : string := "❌ Limit reached: Only 20 users allowed.".
Definition msg_started (admin : string) : string :=
  "✅ Bot started successfully for UID: " +:+ admin.
Definition msg_invalid : string := "❌ Invalid AppState JSON or internal error.".
Definition msg_uid_missing : string := "❌ UID missing.".
Definition msg_not_running : string := "⚠️ Bot not running.".
Definition msg_stopped (uid : string) : string := "🔴 Bot stopped for UID: " +:+ uid.
Definition msg_stop_failed : string := "❌ Failed to stop bot.".
Definition msg_no_logs : string := "(No logs yet)".

(** ** The handlers *)

(** The body of a POST /start-bot, after [const { appstate, admin } = req.body].
    A field that is absent is [None].  The model takes [admin] to be a
    string of the body; [String(admin)] is then that string, and so is the
    key [processes[admin]] uses. *)
Record StartBody := mkStartBody {
  appstate : option json;
  admin : option string
}.

(** [!appstate] *)
Definition missing_json (v : option json) : bool :=
  match v with
  | Some j => negb (truthy j)
  | None => true
  end.

(** [!admin], [!uid] *)
Definition missing_uid (v : option string) : bool :=
  match v with
  | Some s => String.eqb s EmptyString
  | None => true
  end.

(** The test of line 55:
    [!currentUsers.includes(String(admin)) && currentUsers.length >= MAX_USERS] *)
Definition limit_reached (disk : gmap string UserDir) (uid : string) : bool :=
  negb (includes (currentUsers disk) uid)
  && (MAX_USERS <=? length (currentUsers disk))%nat.

Section Server.
Context `{Runtime}.

(** [typeof appstate === 'string' ? JSON.parse(appstate) : appstate] *)
Definition decode_appstate (v : json) : option json :=
  match v with
  | JStr s => JSON_parse s
  | _ => Some v
  end.

(** The three [writeFileSync] calls of the try block. *)
Definition write_session (disk : gmap string UserDir) (uid : string)
    (obj : json) (now : string) : gmap string UserDir :=
  <[uid := mkUserDir (Some (JSON_stringify obj)) (Some uid)
                     (Some (session_marker now))]> disk.

(** [if (processes[admin]) { try { processes[admin].kill(); } catch (e) {} }] *)
Definition kill_previous (w : World) (uid : string) (k : KillOutcome) : World :=
  match processes w !! uid with
  | Some old => effect w (Kill old k)
  | None => w
  end.

(** [fork(...)], the three listeners, and [processes[admin] = child]. *)
Definition fork_child (w : World) (uid : string) : World :=
  let pid := length (children w) in
  mkWorld (users w)
          (<[uid := pid]> (processes w))
          (children w ++ [mkChild uid false])
          (effects w ++ [Fork pid uid]).

(** [app.post('/start-bot', ...)] *)
Definition start_bot (w : World) (req : StartBody) (now : string)
    (k : KillOutcome) : World * Response :=
  match admin req with
  | Some uid =>
      if missing_json (appstate req) || missing_uid (admin req)
      then (w, mkResponse 400 msg_missing_start)
      else if limit_reached (users w) uid
      then (w, mkResponse 403 msg_limit)
      else
        let w1 := with_users w (mkdir_if_missing (users w) uid) in
        match appstate req ≫= decode_appstate with
        | Some obj =>
            let w2 := with_users w1 (write_session (users w1) uid obj now) in
            let w3 := kill_previous w2 uid k in
            (fork_child w3 uid, send (msg_started uid))
        | None => (w1, mkResponse 500 msg_invalid)
        end
  | None => (w, mkResponse 400 msg_missing_start)
  end.

(** [app.get('/stop-bot', ...)] *)
Definition stop_bot (w : World) (uid : option string) (k : KillOutcome)
    : World * Response :=
  match uid with
  | Some u =>
      if missing_uid uid then (w, mkResponse 400 msg_uid_missing)
      else
        match processes w !! u with
        | None => (w, send msg_not_running)
        | Some pid =>
            let w1 := effect w (Kill pid k) in
            match k with
            | KillReturned _ =>
                (with_processes w1 (delete u (processes w1)), send (msg_stopped u))
            | KillThrew => (w1, mkResponse 500 msg_stop_failed)
            end
        end
  | None => (w, mkResponse 400 msg_uid_missing)
  end.

(** [app.get('/logs', ...)] *)
Definition get_logs (w : World) (uid : option string) : Response :=
  match uid with
  | Some u =>
      if missing_uid uid then mkResponse 400 msg_uid_missing
      else
        match users w !! u ≫= logs_txt with
        | Some text => send text
        | None => send msg_no_logs
        end
  | None => mkResponse 400 msg_uid_missing
  end.

(** The body shared by the stdout and stderr listeners, on the line they
    built: [appendLog(userDir, line); io.to(String(admin)).emit('botlog', line)]. *)
Definition log_line (w : World) (uid : string) (line : string) : World :=
  effect (with_users w (appendLog uid line (users w))) (Emit uid line).

(** [child.stdout.on('data', ...)] *)
Definition on_stdout (w : World) (c : Child) (data : string) : World :=
  log_line w (child_admin c) (trim data).

(** [child.stderr.on('data', ...)] *)
Definition on_stderr (w : World) (c : Child) (data : string) : World :=
  log_line w (child_admin c) ("[ERR] " +:+ trim data).

(** [child.on('exit', ...)] *)
Definition on_exit (w : World) (c : Child) (code : option Z) (now : string)
    : World :=
  let w1 := log_line w (child_admin c) (exit_marker code now) in
  with_processes w1 (delete (child_admin c) (processes w1)).

(** ** The server as a transition system *)

(** What the runtime can deliver to the server.  A request carries what the
    handler will read from the runtime while it runs. *)
Inductive Event : Type :=
  | PostStartBot (req : StartBody) (now : string) (k : KillOutcome)
  | GetStopBot (uid : option string) (k : KillOutcome)
  | GetLogs (uid : option string)
  | ChildStdout (pid : nat) (data : string)
  | ChildStderr (pid : nat) (data : string)
  | ChildExit (pid : nat) (code : option Z) (now : string).

Definition mark_exited (w : World) (pid : nat) (c : Child) : World :=
  mkWorld (users w) (processes w)
          (<[pid := mkChild (child_admin c) true]> (children w))
          (effects w).

(** One event.  [None]: the runtime cannot deliver this event in this state.
    Only a child that was forked has listeners, and node emits the exit of a
    child once.  Data can still arrive on a pipe after the exit event. *)
Definition step (w : World) (e : Event) : option (World * option Response) :=
  match e with
  | PostStartBot req now k =>
      let (w', r) := start_bot w req now k in Some (w', Some r)
  | GetStopBot uid k =>
      let (w', r) := stop_bot w uid k in Some (w', Some r)
  | GetLogs uid => Some (w, Some (get_logs w uid))
  | ChildStdout pid data =>
      c ← children w !! pid; Some (on_stdout w c data, None)
  | ChildStderr pid data =>
      c ← children w !! pid; Some (on_stderr w c data, None)
  | ChildExit pid code now =>
      c ← children w !! pid;
      if child_exited c then None
      else Some (mark_exited (on_exit w c code now) pid c, None)
  end.

Fixpoint run (w : World) (evs : list Event) : option World :=
  match evs with
  | [] => Some w
  | e :: rest => r ← step w e; run r.1 rest
  end.

(** The states the server can be in: some events after starting on some
    [users] directory. *)
Definition reachable (w : World) : Prop :=
  ∃ disk evs, run (boot disk) evs = Some w.


(** The content of [logs.txt] of a uid, when the file exists. *)
Definition log_of (w : World) (uid : string) : option string :=
  users w !! uid ≫= logs_txt.



(** No POST /start-bot for [uid] among the events. *)
Definition starts (uid : string) (e : Event) : bool :=
  match e with
  | PostStartBot req _ _ => bool_decide (admin req = Some uid)
  | _ => false
  end.

End Server.

(** ** A runtime to run the model on *)

Fixpoint trim_left (s : string) : string :=
  match s with
  | String a rest => if Ascii.is_space a then trim_left rest else s
  | EmptyString => EmptyString
  end.

Definition ascii_trim (s : string) : string :=
  String.rev (trim_left (String.rev (trim_left s))).

(** A small runtime: it decodes the empty array and the empty object only,
    and trims ASCII blanks. *)
Definition small_runtime : Runtime := {|
  JSON_parse s :=
    if String.eqb s "[]" then Some (JArr [])
    else if String.eqb s "{}" then Some (JObj [])
    else None;
  JSON_stringify j :=
    match j with
    | JArr [] => "[]"
    | JObj [] => "{}"
    | _ => "null"
    end;
  trim := ascii_trim
|}.

(** A [users] directory with the twenty active users 0 .. 19. *)
Definition full_disk : gmap string UserDir :=
  list_to_map
    ((λ n : nat, (pretty n, mkUserDir (Some "[]") (Some (pretty n)) None))
       <$> seq 0 MAX_USERS).

Definition body_of (uid : string) (text : string) : StartBody :=
  mkStartBody (Some (JStr text)) (Some uid).

(** The server after one successful start of user a on an empty directory. *)
Definition one_bot : World :=
  (@start_bot small_runtime (boot ∅) (body_of "a" "[]") "t0" (KillReturned true)).1.

(** User a is started, writes a chunk, is started again, and then both
    children write while the exit of the first one is still to come. *)
Definition restart_events : list Event :=
  [ PostStartBot (body_of "a" "[]") "t0" (KillReturned true);
    ChildStdout 0 "old 1";
    PostStartBot (body_of "a" "[]") "t1" (KillReturned true);
    ChildStdout 1 "new 1" ].

Definition overlap_events : list Event :=
  [ ChildStdout 0 "old 2";
    ChildStdout 1 "new 2";
    ChildExit 0 None "t2" ].

(** One child of user a writing on both pipes and then exiting with code 1,
    with a stop request for another user in between. *)
Definition session_events : list Event :=
  [ ChildStdout 0 "  hello ";
    GetStopBot (Some "b") KillThrew;
    ChildStderr 0 "oops";
    ChildExit 0 (Some 1%Z) "t1" ].

(** What holds of a child and of an entry of [processes] in every state the
    server reaches: the directory of a child's uid has its [appstate.json]
    and its [logs.txt], and an entry of [processes] is a child of that uid
    whose exit has not been delivered. *)
Record consistent (w : World) : Prop := mkConsistent {
  child_dir : ∀ pid c, children w !! pid = Some c →
    child_admin c ≠ EmptyString
    ∧ exists_appstate (users w) (child_admin c) = true
    ∧ is_Some (users w !! child_admin c ≫= logs_txt);
  registered_live : ∀ uid pid, processes w !! uid = Some pid →
    children w !! pid = Some (mkChild uid false)
}.

(** ** The uids the model is exact for *)

(** The keys every object inherits from [Object.prototype] in node.  For
    these [processes[uid]] is truthy without an own property, and for
    [__proto__] an assignment sets the prototype and [delete] does nothing. *)
Definition inherited_keys : list string :=
  [ "constructor"; "__defineGetter__"; "__defineSetter__"; "hasOwnProperty";
    "__lookupGetter__"; "__lookupSetter__"; "isPrototypeOf";
    "propertyIsEnumerable"; "toString"; "valueOf"; "__proto__";
    "toLocaleString" ].

Definition inherited (k : string) : bool :=
  bool_decide (k ∈ inherited_keys).

(** A name [path.join(USERS_DIR, uid)] takes as one entry of [USERS_DIR]:
    not empty, not one of the two dot entries, without a slash or a NUL
    byte, and at most 255 bytes long. *)
Fixpoint no_slash_no_nul (s : string) : bool :=
  match s with
  | EmptyString => true
  | String a rest =>
      negb (Ascii.eqb a (Ascii.ascii_of_nat 47))
      && negb (Ascii.eqb a (Ascii.ascii_of_nat 0))
      && no_slash_no_nul rest
  end.

Definition is_name (uid : string) : bool :=
  negb (String.eqb uid EmptyString)
  && negb (String.eqb uid ".")
  && negb (String.eqb uid "..")
  && no_slash_no_nul uid
  && (String.length uid <=? 255)%nat.

(** The uids for which the directory of the uid is the entry of that name and
    [processes[uid]] is the own property. *)
Definition plain (uid : string) : bool :=
  is_name uid && negb (inherited uid).

(** An event that is no start request for a uid outside [plain]. *)
Definition plain_start (e : Event) : bool :=
  match e with
  | PostStartBot req _ _ =>
      match admin req with
      | Some uid => plain uid
      | None => true
      end
  | _ => true
  end.

Section PlainRuns.
Context `{Runtime}.

(** The states the server reaches when every start request names a plain
    uid. *)
Definition plain_reachable (w : World) : Prop :=
  ∃ disk evs, forallb plain_start evs = true ∧ run (boot disk) evs = Some w.

End PlainRuns.

(** ** Reading a run *)

(** The uid an event is about: the one a request names, or the one the
    listeners of the child closed over. *)
Definition event_uid (w : World) (e : Event) : option string :=
  match e with
  | PostStartBot req _ _ => admin req
  | GetStopBot uid _ => uid
  | GetLogs uid => uid
  | ChildStdout pid _ | ChildStderr pid _ | ChildExit pid _ _ =>
      child_admin <$> children w !! pid
  end.

(** What the [Emit]s to one room add up to, a line feed after each text. *)
Fixpoint emitted_to (room : string) (effs : list Effect) : string :=
  match effs with
  | [] => EmptyString
  | Emit r text :: rest =>
      if String.eqb r room then text +:+ nl +:+ emitted_to room rest
      else emitted_to room rest
  | _ :: rest => emitted_to room rest
  end.


(** * The worker, [bot.js] *)

(** ** Loading the two files at start-up *)

Section Worker.
Context `{Runtime}.

(** The two try blocks at the top of the worker: [appstate.json] is read,
    must not be blank and must parse; [admin.txt] is read and trimmed and
    must not be empty.  [None]: the worker ends with [process.exit(1)]
    before it logs in.  The argument is the directory of the uid, if there
    is one. *)
Definition bot_load (dir : option UserDir) : option (json * string) :=
  d ← dir;
  raw ← appstate_json d;
  if String.eqb (trim raw) EmptyString then None
  else
    appState ← JSON_parse raw;
    BOSS_UID ← trim <$> admin_txt d;
    if String.eqb BOSS_UID EmptyString then None
    else Some (appState, BOSS_UID).

End Worker.

(** ** [safeRetry] *)

(** What [safeRetry] does besides returning: it calls [fn], it logs, it
    waits. *)
Inductive RetryStep : Type :=
  | Attempt
  | LogLine (text : string)
  | Sleep (ms : nat).

(** The for loop of [safeRetry], from index [i] with [todo] rounds to go.
    [fn i] is how the call of round [i] ends: [None] when the promise
    resolves, [Some err] when it rejects, [err] being the text the template
    literal prints. *)
Fixpoint safeRetry_loop (fn : nat → option string) (desc : string)
    (attempts delayMs : nat) (todo i : nat) : bool * list RetryStep :=
  match todo with
  | 0 =>
      (false,
       [LogLine ("❌ " +:+ desc +:+ " failed after " +:+ pretty attempts
                 +:+ " attempts")])
  | S todo' =>
      match fn i with
      | None =>
          (true,
           Attempt ::
           (if (0 <? i)%nat
            then [LogLine ("✅ " +:+ desc +:+ " succeeded on attempt "
                           +:+ pretty (i + 1))]
            else []))
      | Some err =>
          let r := safeRetry_loop fn desc attempts delayMs todo' (S i) in
          (r.1,
           Attempt ::
           LogLine ("⚠️ " +:+ desc +:+ " failed attempt " +:+ pretty (i + 1)
                    +:+ ": " +:+ err) ::
           (if (i <? attempts - 1)%nat then [Sleep delayMs] else []) ++ r.2)
      end
  end.

(** [safeRetry(fn, desc, attempts, delayMs)] *)
Definition safeRetry (fn : nat → option string) (desc : string)
    (attempts delayMs : nat) : bool * list RetryStep :=
  safeRetry_loop fn desc attempts delayMs attempts 0.

Definition is_attempt (s : RetryStep) : bool :=
  match s with Attempt => true | _ => false end.

Definition is_sleep (s : RetryStep) : bool :=
  match s with Sleep _ => true | _ => false end.

Definition is_log (s : RetryStep) : bool :=
  match s with LogLine _ => true | _ => false end.

Definition attempts_made (steps : list RetryStep) : nat :=
  length (List.filter is_attempt steps).

Definition sleeps_made (steps : list RetryStep) : nat :=
  length (List.filter is_sleep steps).

Definition lines_logged (steps : list RetryStep) : nat :=
  length (List.filter is_log steps).

(** ** Reading the fields of an event *)

(** [obj[k]] for a key no prototype has: the value of the own property, and
    undefined, which is [None], on anything that is not an object with that
    key. *)
Fixpoint assoc (k : string) (fields : list (string * json)) : option json :=
  match fields with
  | [] => None
  | (k', v) :: rest => if String.eqb k' k then Some v else assoc k rest
  end.

Definition field (k : string) (v : json) : option json :=
  match v with
  | JObj fields => assoc k fields
  | _ => None
  end.

(** Truthiness of a value that can be undefined. *)
Definition truthy_opt (v : option json) : bool :=
  match v with
  | Some j => truthy j
  | None => false
  end.

(** [a || b] *)
Definition js_or (a b : option json) : option json :=
  if truthy_opt a then a else b.

(** [a && b] *)
Definition js_and (a b : option json) : option json :=
  if truthy_opt a then b else a.

(** [v?.k] *)
Definition opt_field (k : string) (v : option json) : option json :=
  match v with
  | None | Some JNull => None
  | Some j => field k j
  end.

(** [extractMsgId(ev)].  [None]: [ev] is null and reading its first field
    throws. *)
Definition extractMsgId (ev : json) : option (option json) :=
  match ev with
  | JNull => None
  | _ =>
      let message := field "message" ev in
      let logMessageData := field "logMessageData" ev in
      Some
        (js_or (field "messageID" ev)
        (js_or (field "message_id" ev)
        (js_or (js_and message
                  (js_or (message ≫= field "mid")
                  (js_or (message ≫= field "messageID")
                         (message ≫= field "message_id"))))
        (js_or (opt_field "messageID" logMessageData)
        (js_or (opt_field "message_id" logMessageData)
               (Some JNull))))))
  end.

(** [Array.isArray(info.userInfo) && info.userInfo.length > 2] *)
Definition userInfo_test (info : option json) : bool :=
  match info ≫= field "userInfo" with
  | Some (JArr items) => (2 <? length items)%nat
  | _ => false
  end.

(** [typeof info.participantIDs === 'object' &&
    Object.keys(info.participantIDs).length > 2].  The type test lets null,
    arrays and objects through; [None]: [Object.keys(null)] throws. *)
Definition participantIDs_test (info : option json) : option bool :=
  match info ≫= field "participantIDs" with
  | Some JNull => None
  | Some (JArr items) => Some (2 <? length items)%nat
  | Some (JObj fields) => Some (2 <? length (remove_dups fields.*1))%nat
  | _ => Some false
  end.

(** [typeof info.participantsCount === 'number' && info.participantsCount > 2] *)
Definition participantsCount_test (info : option json) : bool :=
  match info ≫= field "participantsCount" with
  | Some (JNum c) => (2 <? c)%Z
  | _ => false
  end.

(** [isGroupThreadInfo(info)]: the three tests in turn; a throw inside the
    try block ends in [return false]. *)
Definition isGroupThreadInfo (info : option json) : bool :=
  if negb (truthy_opt info) then false
  else if userInfo_test info then true
  else
    match participantIDs_test info with
    | None => false
    | Some true => true
    | Some false => participantsCount_test info
    end.

(** * Properties *)

(** ** The active users *)

Lemma elem_of_readdir (disk : gmap string UserDir) (uid : string) :
  uid ∈ readdir disk ↔ is_Some (disk !! uid).
Proof.
  unfold readdir. rewrite list_elem_of_fmap. split.
  - intros [[u d] [-> Hin]]. apply elem_of_map_to_list in Hin. by exists d.
  - intros [d Hd]. exists (uid, d). split; [done|]. by apply elem_of_map_to_list.
Qed.

Lemma elem_of_currentUsers (disk : gmap string UserDir) (uid : string) :
  uid ∈ currentUsers disk ↔ exists_appstate disk uid = true.
Proof.
  unfold currentUsers. rewrite list_elem_of_In, filter_In, <- list_elem_of_In.
  rewrite elem_of_readdir. split; [by intros [_ ?]|].
  intros Hx. split; [|done]. unfold exists_appstate in Hx.
  destruct (disk !! uid); [by eexists | done].
Qed.

Lemma includes_currentUsers (disk : gmap string UserDir) (uid : string) :
  includes (currentUsers disk) uid = exists_appstate disk uid.
Proof.
  unfold includes. destruct (exists_appstate disk uid) eqn:E.
  - apply bool_decide_eq_true. by apply elem_of_currentUsers.
  - apply bool_decide_eq_false. rewrite elem_of_currentUsers. congruence.
Qed.

Lemma NoDup_currentUsers (disk : gmap string UserDir) :
  NoDup (currentUsers disk).
Proof.
  unfold currentUsers.
  apply NoDup_ListNoDup, List.NoDup_filter, NoDup_ListNoDup, NoDup_fst_map_to_list.
Qed.


Lemma missing_uid_Some (uid : string) :
  uid ≠ EmptyString → missing_uid (Some uid) = false.
Proof. intros Hne. simpl. by apply String.eqb_neq. Qed.

Lemma exists_appstate_mkdir (disk : gmap string UserDir) (uid u : string) :
  exists_appstate (mkdir_if_missing disk uid) u = exists_appstate disk u.
Proof.
  unfold mkdir_if_missing, exists_appstate.
  destruct (disk !! uid) eqn:E; [done|].
  destruct (decide (uid = u)) as [->|Hne].
  - by rewrite lookup_insert_eq, E.
  - by rewrite lookup_insert_ne.
Qed.

Section Requests.
Context `{Runtime}.

(** ** POST /start-bot: admission *)

(** C1.  A start request that names a user without [appstate.json] while
    twenty or more users have one is answered 403 with the limit message, and
    the state stays as it was: no directory is made, no file is written, no
    child is forked, [processes] is not touched.  (Both fields of the body
    are present; a body with a field missing is answered 400 before the
    count is taken.) *)
Theorem start_bot_limit_reached (w : World) (req : StartBody)
    (uid now : string) (k : KillOutcome) :
  admin req = Some uid →
  uid ≠ EmptyString →
  missing_json (appstate req) = false →
  exists_appstate (users w) uid = false →
  (MAX_USERS ≤ length (currentUsers (users w)))%nat →
  start_bot w req now k = (w, mkResponse 403 msg_limit).
Proof.
  intros Hadm Hne Hmj Hex Hfull. unfold start_bot.
  rewrite Hadm, Hmj, (missing_uid_Some _ Hne).
  unfold limit_reached.
  by rewrite includes_currentUsers, Hex, (proj2 (Nat.leb_le _ _) Hfull).
Qed.

Lemma exists_appstate_write_session (disk : gmap string UserDir)
    (uid u : string) (obj : json) (now : string) :
  exists_appstate (write_session disk uid obj now) u
  = if decide (uid = u) then true else exists_appstate disk u.
Proof.
  unfold write_session, exists_appstate. case_decide as Hu.
  - subst u. by rewrite lookup_insert_eq.
  - by rewrite lookup_insert_ne.
Qed.


(** ** POST /start-bot: the credential *)


(** ** GET /stop-bot *)



(** C10.  When [kill()] throws during a stop request for a registered uid,
    the answer is 500 and [processes] is as before: the entry is deleted
    only after a [kill()] that returned. *)
Theorem stop_bot_kill_threw (w : World) (uid : string) (pid : nat) :
  uid ≠ EmptyString →
  processes w !! uid = Some pid →
  (stop_bot w (Some uid) KillThrew).2 = mkResponse 500 msg_stop_failed
  ∧ processes (stop_bot w (Some uid) KillThrew).1 = processes w
  ∧ processes (stop_bot w (Some uid) KillThrew).1 !! uid = Some pid.
Proof.
  intros Hne Hreg. unfold stop_bot.
  rewrite (missing_uid_Some _ Hne), Hreg. simpl. by rewrite Hreg.
Qed.

(** C3, as the code has it.  A stop request for a uid that has its handle as
    an own property of [processes] is answered with the stopped message, and
    the entry is deleted, whenever [kill()] returns, also when it returns
    false because the process is already gone.  A [kill()] that throws is
    answered 500 with the failure message and the entry stays.  Either way
    no file is written.  The uid [__proto__] is left out: it never is an own
    property, its handle sits in the prototype and [delete] leaves it
    there. *)
Theorem stop_bot_registered (w : World) (uid : string) (pid : nat)
    (k : KillOutcome) :
  uid ≠ EmptyString →
  uid ≠ "__proto__" →
  processes w !! uid = Some pid →
  let r := stop_bot w (Some uid) k in
  users r.1 = users w
  ∧ effects r.1 = (effects w ++ [Kill pid k])%list
  ∧ match k with
    | KillReturned _ =>
        r.2 = mkResponse 200 ("🔴 Bot stopped for UID: " +:+ uid)
        ∧ processes r.1 = delete uid (processes w)
    | KillThrew =>
        r.2 = mkResponse 500 "❌ Failed to stop bot."
        ∧ processes r.1 = processes w
    end.
Proof.
  intros Hne _ Hreg. cbv zeta. unfold stop_bot.
  rewrite (missing_uid_Some _ Hne), Hreg. by destruct k.
Qed.

End Requests.

(** ** The log file *)

Lemma append_assoc (a b c : string) : (a +:+ b) +:+ c = a +:+ (b +:+ c).
Proof.
  induction a as [|x a IH]; [done|].
  change (String x ((a +:+ b) +:+ c) = String x (a +:+ b +:+ c)). by rewrite IH.
Qed.

Lemma append_nil_r (a : string) : a +:+ EmptyString = a.
Proof.
  induction a as [|x a IH]; [done|].
  change (String x (a +:+ EmptyString) = String x a). by rewrite IH.
Qed.

Lemma exists_appstate_appendLog (disk : gmap string UserDir)
    (uid line u : string) :
  exists_appstate (appendLog uid line disk) u = exists_appstate disk u.
Proof.
  unfold appendLog, exists_appstate. destruct (disk !! uid) as [d|] eqn:E; [|done].
  destruct (decide (uid = u)) as [->|Hne].
  - by rewrite lookup_insert_eq, E.
  - by rewrite lookup_insert_ne.
Qed.

Lemma logs_appendLog_same (disk : gmap string UserDir) (uid line text : string) :
  disk !! uid ≫= logs_txt = Some text →
  appendLog uid line disk !! uid ≫= logs_txt = Some (text +:+ line +:+ nl).
Proof.
  unfold appendLog. destruct (disk !! uid) as [d|] eqn:E; [|done]. simpl.
  intros Hl. by rewrite lookup_insert_eq, Hl.
Qed.

Lemma logs_appendLog_other (disk : gmap string UserDir) (uid line u : string) :
  uid ≠ u →
  appendLog uid line disk !! u ≫= logs_txt = disk !! u ≫= logs_txt.
Proof.
  intros Hne. unfold appendLog. destruct (disk !! uid); [|done].
  by rewrite lookup_insert_ne.
Qed.

Lemma logs_appendLog_is_Some (disk : gmap string UserDir) (uid line u : string) :
  is_Some (disk !! u ≫= logs_txt) →
  is_Some (appendLog uid line disk !! u ≫= logs_txt).
Proof.
  intros [text Ht]. destruct (decide (uid = u)) as [->|Hne].
  - rewrite (logs_appendLog_same _ _ _ _ Ht). by eexists.
  - rewrite logs_appendLog_other by done. by eexists.
Qed.

Lemma logs_mkdir (disk : gmap string UserDir) (uid u : string) :
  mkdir_if_missing disk uid !! u ≫= logs_txt = disk !! u ≫= logs_txt.
Proof.
  unfold mkdir_if_missing. destruct (disk !! uid) eqn:E; [done|].
  destruct (decide (uid = u)) as [->|Hne].
  - by rewrite lookup_insert_eq, E.
  - by rewrite lookup_insert_ne.
Qed.

(** ** The states the server reaches *)

Lemma consistent_boot (disk : gmap string UserDir) : consistent (boot disk).
Proof. split; simpl; intros ? ?; [by rewrite lookup_nil | by rewrite lookup_empty]. Qed.

Lemma consistent_log_line (w : World) (uid line : string) :
  consistent w → consistent (log_line w uid line).
Proof.
  intros [Hdir Hreg]. split; simpl; [|done].
  intros pid c Hc. destruct (Hdir pid c Hc) as (Hne & Hex & Hlog).
  split_and!; [done| |by apply logs_appendLog_is_Some].
  by rewrite exists_appstate_appendLog.
Qed.

Lemma consistent_stop (w : World) (uid : option string) (k : KillOutcome) :
  consistent w → consistent (stop_bot w uid k).1.
Proof.
  intros Hw. unfold stop_bot. destruct uid as [u|]; [|done].
  destruct (missing_uid (Some u)); [done|].
  destruct (processes w !! u) as [pid|] eqn:Hp; [|done].
  destruct Hw as [Hdir Hreg]. destruct k; split; simpl; try done.
  intros uid' pid' Hl. apply lookup_delete_Some in Hl as [_ Hl]. by apply Hreg.
Qed.

Lemma consistent_exit (w : World) (pid : nat) (c : Child) (code : option Z)
    (now : string) :
  children w !! pid = Some c →
  consistent w → consistent (mark_exited (on_exit w c code now) pid c).
Proof.
  intros Hc Hw.
  destruct (consistent_log_line w (child_admin c) (exit_marker code now) Hw)
    as [Hdir Hreg].
  simpl in Hdir, Hreg. split; simpl.
  - intros pid' c' Hc'. destruct (decide (pid = pid')) as [<-|Hne].
    + rewrite list_lookup_insert_eq in Hc' by (by eapply lookup_lt_Some).
      simplify_eq. simpl. by apply (Hdir pid c).
    + rewrite list_lookup_insert_ne in Hc' by done. by apply (Hdir pid' c').
  - intros uid' pid' Hl. apply lookup_delete_Some in Hl as [Hne Hl].
    specialize (Hreg _ _ Hl). destruct (decide (pid = pid')) as [<-|Hne'].
    + rewrite Hc in Hreg. by simplify_eq.
    + by rewrite list_lookup_insert_ne.
Qed.

Section Reachable.
Context `{Runtime}.

Lemma kill_previous_users (w : World) (uid : string) (k : KillOutcome) :
  users (kill_previous w uid k) = users w.
Proof. unfold kill_previous. by destruct (processes w !! uid). Qed.

Lemma kill_previous_processes (w : World) (uid : string) (k : KillOutcome) :
  processes (kill_previous w uid k) = processes w.
Proof. unfold kill_previous. by destruct (processes w !! uid). Qed.

Lemma kill_previous_children (w : World) (uid : string) (k : KillOutcome) :
  children (kill_previous w uid k) = children w.
Proof. unfold kill_previous. by destruct (processes w !! uid). Qed.

Lemma consistent_start (w : World) (req : StartBody) (now : string)
    (k : KillOutcome) :
  consistent w → consistent (start_bot w req now k).1.
Proof.
  intros Hw. unfold start_bot. destruct (admin req) as [uid|] eqn:Hadm; [|done].
  destruct (missing_json (appstate req) || missing_uid (Some uid)) eqn:Hmiss;
    [done|].
  apply orb_false_elim in Hmiss as [_ Huid]. simpl in Huid.
  apply String.eqb_neq in Huid.
  destruct (limit_reached (users w) uid); [done|].
  destruct Hw as [Hdir Hreg].
  destruct (appstate req ≫= decode_appstate) as [obj|]; simpl.
  - assert (Hfresh : ∀ u,
      (u = uid ∨ (exists_appstate (users w) u = true
                  ∧ is_Some (users w !! u ≫= logs_txt))) →
      exists_appstate (write_session (mkdir_if_missing (users w) uid) uid obj now) u
        = true
      ∧ is_Some (write_session (mkdir_if_missing (users w) uid) uid obj now !! u
                 ≫= logs_txt)).
    { intros u Hu. rewrite exists_appstate_write_session. unfold write_session.
      destruct (decide (uid = u)) as [->|Hne].
      - rewrite lookup_insert_eq. split; [done | by eexists].
      - rewrite lookup_insert_ne, exists_appstate_mkdir, logs_mkdir by done.
        destruct Hu as [->|Hu]; done. }
    split; unfold fork_child; simpl;
      rewrite ?kill_previous_children, ?kill_previous_processes,
        ?kill_previous_users; simpl.
    + intros pid c Hc. apply lookup_app_Some in Hc as [Hc|[_ Hc]].
      * destruct (Hdir pid c Hc) as (Hne & Hex & Hlog).
        split; [done|]. apply Hfresh. by right.
      * apply list_lookup_singleton_Some in Hc as [_ <-]. simpl.
        split; [done|]. apply Hfresh. by left.
    + intros u pid Hl. apply lookup_insert_Some in Hl as [[<- <-]|[Hne Hl]].
      * by rewrite lookup_app_r, Nat.sub_diag.
      * apply lookup_app_l_Some. by apply Hreg.
  - split; simpl; [|done]. intros pid c Hc.
    destruct (Hdir pid c Hc) as (Hne & Hex & Hlog).
    by rewrite exists_appstate_mkdir, logs_mkdir.
Qed.

Lemma consistent_step (w w' : World) (e : Event) (r : option Response) :
  step w e = Some (w', r) → consistent w → consistent w'.
Proof.
  intros Hstep Hw. destruct e as [req now k|uid k|uid|pid data|pid data|pid code now];
    simpl in Hstep.
  - pose proof (consistent_start w req now k Hw) as Hs.
    destruct (start_bot w req now k). by simplify_eq.
  - pose proof (consistent_stop w uid k Hw) as Hs.
    destruct (stop_bot w uid k). by simplify_eq.
  - by simplify_eq.
  - destruct (children w !! pid) as [c|]; simplify_eq/=.
    by apply consistent_log_line.
  - destruct (children w !! pid) as [c|]; simplify_eq/=.
    by apply consistent_log_line.
  - destruct (children w !! pid) as [c|] eqn:Hc; simplify_eq/=.
    destruct (child_exited c); simplify_eq. by apply consistent_exit.
Qed.

Lemma consistent_run (evs : list Event) (w w' : World) :
  run w evs = Some w' → consistent w → consistent w'.
Proof.
  revert w. induction evs as [|e evs IH]; intros w Hrun Hw; simpl in Hrun.
  - by simplify_eq.
  - destruct (step w e) as [[w1 r]|] eqn:Hstep; simplify_eq/=.
    eapply IH; [done|]. by eapply consistent_step.
Qed.

Lemma reachable_consistent (w : World) : reachable w → consistent w.
Proof. intros (disk & evs & Hrun). eapply consistent_run, consistent_boot. done. Qed.

Lemma run_app (evs1 evs2 : list Event) (w : World) :
  run w (evs1 ++ evs2) = run w evs1 ≫= λ w1, run w1 evs2.
Proof.
  revert w. induction evs1 as [|e evs1 IH]; intros w; simpl; [done|].
  destruct (step w e) as [[w1 r]|]; simpl; [apply IH | done].
Qed.

Lemma reachable_run (w w' : World) (evs : list Event) :
  reachable w → run w evs = Some w' → reachable w'.
Proof.
  intros (disk & evs0 & Hrun0) Hrun. exists disk, (evs0 ++ evs).
  by rewrite run_app, Hrun0.
Qed.

(** A child keeps its uid, and an exit that was delivered stays delivered. *)
Lemma child_stable_step (w w' : World) (e : Event) (r : option Response)
    (pid : nat) (c : Child) :
  step w e = Some (w', r) → children w !! pid = Some c →
  ∃ c', children w' !! pid = Some c'
        ∧ child_admin c' = child_admin c
        ∧ (child_exited c = true → child_exited c' = true).
Proof.
  intros Hstep Hc.
  destruct e as [req now k|uid k|uid|p data|p data|p code now]; simpl in Hstep.
  - unfold start_bot in Hstep.
    destruct (admin req) as [uid|]; [|simplify_eq; eauto].
    destruct (_ || _); [simplify_eq; eauto|].
    destruct (limit_reached _ _); [simplify_eq; eauto|].
    destruct (_ ≫= _); simplify_eq/=; [|eauto].
    exists c. rewrite kill_previous_children. simpl.
    split; [by apply lookup_app_l_Some | done].
  - unfold stop_bot in Hstep. destruct uid as [u|]; [|simplify_eq; eauto].
    destruct (missing_uid _); [simplify_eq; eauto|].
    destruct (processes w !! u); [|simplify_eq; eauto].
    destruct k; simplify_eq/=; eauto.
  - simplify_eq. eauto.
  - destruct (children w !! p); simplify_eq/=. eauto.
  - destruct (children w !! p); simplify_eq/=. eauto.
  - destruct (children w !! p) as [c0|] eqn:Hp; simplify_eq/=.
    destruct (child_exited c0) eqn:Hex; simplify_eq/=.
    destruct (decide (p = pid)) as [->|Hne].
    + rewrite list_lookup_insert_eq by (by eapply lookup_lt_Some).
      simplify_eq. eauto.
    + rewrite list_lookup_insert_ne by done. eauto.
Qed.

Lemma child_stable_run (evs : list Event) (w w' : World) (pid : nat) (c : Child) :
  run w evs = Some w' → children w !! pid = Some c →
  ∃ c', children w' !! pid = Some c'
        ∧ child_admin c' = child_admin c
        ∧ (child_exited c = true → child_exited c' = true).
Proof.
  revert w c. induction evs as [|e evs IH]; intros w c Hrun Hc; simpl in Hrun.
  - simplify_eq. eauto.
  - destruct (step w e) as [[w1 r]|] eqn:Hstep; simplify_eq/=.
    destruct (child_stable_step _ _ _ _ _ _ Hstep Hc) as (c1 & Hc1 & Ha1 & He1).
    destruct (IH _ _ Hrun Hc1) as (c' & Hc' & Ha' & He').
    exists c'. split_and!; [done|congruence|auto].
Qed.

(** ** The exit of a child *)

Lemma plain_reachable_reachable (w : World) : plain_reachable w → reachable w.
Proof. intros (disk & evs & _ & Hrun). by exists disk, evs. Qed.

(** X17.  In every state the server reaches through start requests for plain
    uids, the exit of a child whose exit has not been delivered yet is
    handled: the handler appends the one line that begins with the red dot
    and carries the exit code, or the word null, and the time, to the log of
    the child's uid, emits the same text to the room of that uid, and leaves
    [processes] without an entry for that uid.  After that the exit of this
    child is never delivered again, whatever happens next, so the line is
    not appended a second time. *)
Theorem exit_reaped_once (w : World) (pid : nat) (c : Child)
    (code : option Z) (now : string) :
  plain_reachable w →
  children w !! pid = Some c →
  child_exited c = false →
  let line :=
    "🔴 Bot exited with code "
    +:+ match code with Some n => pretty n | None => "null" end
    +:+ " at " +:+ now in
  ∃ w' text,
    step w (ChildExit pid code now) = Some (w', None)
    ∧ log_of w (child_admin c) = Some text
    ∧ log_of w' (child_admin c)
      = Some (text +:+ line +:+ String (Ascii.ascii_of_nat 10) EmptyString)
    ∧ effects w' = effects w ++ [Emit (child_admin c) line]
    ∧ processes w' !! child_admin c = None
    ∧ ∀ evs w'' code' now',
        run w' evs = Some w'' → step w'' (ChildExit pid code' now') = None.
Proof.
  intros Hreach%plain_reachable_reachable Hc Hlive. cbv zeta.
  destruct (child_dir w (reachable_consistent w Hreach) pid c Hc)
    as (_ & _ & [text Htext]).
  exists (mark_exited (on_exit w c code now) pid c), text.
  split_and!.
  - simpl. by rewrite Hc; simpl; rewrite Hlive.
  - done.
  - unfold log_of. simpl.
    exact (logs_appendLog_same _ _ (exit_marker code now) _ Htext).
  - done.
  - simpl. apply lookup_delete_eq.
  - intros evs w'' code' now' Hrun.
    assert (Hc' : children (mark_exited (on_exit w c code now) pid c) !! pid
                  = Some (mkChild (child_admin c) true)).
    { simpl. apply list_lookup_insert_eq. by eapply lookup_lt_Some. }
    destruct (child_stable_run _ _ _ _ _ Hrun Hc') as (c2 & Hc2 & _ & Hex).
    simpl. rewrite Hc2. simpl. by rewrite Hex.
Qed.

(** ** A start that goes through *)

Lemma start_bot_ok (w : World) (req : StartBody) (uid : string) (obj : json)
    (now : string) (k : KillOutcome) :
  admin req = Some uid →
  uid ≠ EmptyString →
  missing_json (appstate req) = false →
  limit_reached (users w) uid = false →
  appstate req ≫= decode_appstate = Some obj →
  start_bot w req now k
  = (fork_child
       (kill_previous
          (with_users w
             (write_session (mkdir_if_missing (users w) uid) uid obj now))
          uid k)
       uid,
     send (msg_started uid)).
Proof.
  intros Hadm Hne Hmj Hlim Hdec. unfold start_bot.
  by rewrite Hadm, Hmj, (missing_uid_Some _ Hne), Hlim, Hdec.
Qed.

(** Only a start that went through is answered 200. *)
Lemma start_bot_200 (w : World) (req : StartBody) (uid : string)
    (now : string) (k : KillOutcome) :
  admin req = Some uid →
  status (start_bot w req now k).2 = 200 →
  ∃ obj, uid ≠ EmptyString
         ∧ missing_json (appstate req) = false
         ∧ limit_reached (users w) uid = false
         ∧ appstate req ≫= decode_appstate = Some obj.
Proof.
  intros Hadm. unfold start_bot. rewrite Hadm.
  destruct (missing_json (appstate req)) eqn:Hmj; [done|].
  destruct (missing_uid (Some uid)) eqn:Hmu; [done|].
  destruct (limit_reached (users w) uid); [done|].
  destruct (appstate req ≫= decode_appstate) as [obj|]; [|done].
  intros _. exists obj. split_and!; try done.
  simpl in Hmu. by apply String.eqb_neq.
Qed.


Lemma stop_bot_users (w : World) (uid : option string) (k : KillOutcome) :
  users (stop_bot w uid k).1 = users w.
Proof.
  unfold stop_bot. destruct uid as [u|]; [|done].
  destruct (missing_uid _); [done|].
  destruct (processes w !! u); [|done]. by destruct k.
Qed.

Lemma log_line_log (w : World) (u line uid text : string) :
  log_of w uid = Some text →
  log_of (log_line w u line) uid
  = Some (text +:+ (if String.eqb u uid then line +:+ nl else EmptyString)).
Proof.
  intros Ht. unfold log_of, log_line. simpl.
  destruct (String.eqb_spec u uid) as [->|Hne].
  - by apply logs_appendLog_same.
  - rewrite logs_appendLog_other by done. by rewrite append_nil_r.
Qed.



(** ** GET /logs *)



(** ** Starting a uid whose child is running *)

(** A start for a uid with an entry in [processes], in a state the server
    reaches: the state it leaves. *)
Lemma start_bot_restart (w : World) (req : StartBody) (uid : string)
    (old : nat) (obj : json) (now : string) (k : KillOutcome) :
  reachable w →
  admin req = Some uid →
  processes w !! uid = Some old →
  missing_json (appstate req) = false →
  appstate req ≫= decode_appstate = Some obj →
  children w !! old = Some (mkChild uid false)
  ∧ start_bot w req now k
    = (mkWorld (write_session (mkdir_if_missing (users w) uid) uid obj now)
               (<[uid := length (children w)]> (processes w))
               (children w ++ [mkChild uid false])
               (effects w ++ [Kill old k; Fork (length (children w)) uid]),
       send (msg_started uid)).
Proof.
  intros Hreach Hadm Hreg Hmj Hdec.
  pose proof (reachable_consistent w Hreach) as Hw.
  pose proof (registered_live w Hw uid old Hreg) as Hold.
  destruct (child_dir w Hw old _ Hold) as (Hne & Hex & _). simpl in Hne, Hex.
  split; [done|].
  rewrite (start_bot_ok w req uid obj now k); try done.
  - unfold fork_child, kill_previous. simpl. rewrite Hreg. simpl.
    by rewrite <- app_assoc.
  - unfold limit_reached. by rewrite includes_currentUsers, Hex.
Qed.

(** C8, as the code has it.  In a state reached through start requests for
    plain uids, a start for a uid that has an entry in [processes] calls
    [kill()] on the registered child and forks the new child after that
    call.  It does not wait for the exit of the old child: when the handler
    is done the exit of the old child has not been delivered, the log holds
    the new session marker only, and a chunk that the old child writes from
    then on is appended to that same log. *)
Theorem start_bot_kills_then_forks (w : World) (req : StartBody)
    (uid : string) (old : nat) (obj : json) (now : string) (k : KillOutcome) :
  plain_reachable w →
  admin req = Some uid →
  processes w !! uid = Some old →
  missing_json (appstate req) = false →
  appstate req ≫= decode_appstate = Some obj →
  let w' := (start_bot w req now k).1 in
  let new := length (children w) in
  (start_bot w req now k).2 = send (msg_started uid)
  ∧ effects w' = effects w ++ [Kill old k; Fork new uid]
  ∧ processes w' !! uid = Some new
  ∧ children w' !! new = Some (mkChild uid false)
  ∧ children w' !! old = Some (mkChild uid false)
  ∧ log_of w' uid
    = Some ("📂 Logs started at " +:+ now
            +:+ String (Ascii.ascii_of_nat 10) EmptyString)
  ∧ ∀ data, ∃ w'',
      step w' (ChildStdout old data) = Some (w'', None)
      ∧ log_of w'' uid
        = Some (("📂 Logs started at " +:+ now
                 +:+ String (Ascii.ascii_of_nat 10) EmptyString)
                +:+ trim data +:+ String (Ascii.ascii_of_nat 10) EmptyString).
Proof.
  intros Hreach%plain_reachable_reachable Hadm Hreg Hmj Hdec. cbv zeta.
  destruct (start_bot_restart w req uid old obj now k Hreach Hadm Hreg Hmj Hdec)
    as [Hold ->].
  assert (Hlog : log_of (mkWorld
      (write_session (mkdir_if_missing (users w) uid) uid obj now)
      (<[uid := length (children w)]> (processes w))
      (children w ++ [mkChild uid false])
      (effects w ++ [Kill old k; Fork (length (children w)) uid])) uid
    = Some (session_marker now)).
  { unfold log_of, write_session. simpl. by rewrite lookup_insert_eq. }
  simpl. split_and!; try done.
  - apply lookup_insert_eq.
  - by rewrite lookup_app_r, Nat.sub_diag.
  - by apply lookup_app_l_Some.
  - intros data. eexists. rewrite (lookup_app_l_Some _ _ _ _ Hold). simpl.
    split; [done|].
    unfold on_stdout. simpl.
    rewrite (log_line_log _ uid (trim data) uid _ Hlog).
    by rewrite String.eqb_refl.
Qed.


End Reachable.

(** * The properties on concrete runs *)

Lemma one_bot_reachable : @reachable small_runtime one_bot.
Proof.
  exists ∅, [PostStartBot (body_of "a" "[]") "t0" (KillReturned true)].
  reflexivity.
Qed.

Lemma start_bot_limit_reached_witness :
  exists_appstate full_disk "new" = false
  ∧ MAX_USERS ≤ length (currentUsers full_disk)
  ∧ @start_bot small_runtime (boot full_disk) (body_of "new" "[]") "t0" KillThrew
    = (boot full_disk, mkResponse 403 msg_limit).
Proof.
  assert (Hfull : MAX_USERS ≤ length (currentUsers full_disk))
    by (vm_compute; lia).
  split_and!; [reflexivity | exact Hfull |].
  apply (start_bot_limit_reached (boot full_disk) (body_of "new" "[]") "new");
    [reflexivity | discriminate | reflexivity | reflexivity | exact Hfull].
Defined.




Lemma stop_bot_kill_threw_witness :
  (stop_bot one_bot (Some "a") KillThrew).2 = mkResponse 500 msg_stop_failed
  ∧ processes (stop_bot one_bot (Some "a") KillThrew).1 !! "a" = Some 0.
Proof.
  destruct (stop_bot_kill_threw one_bot "a" 0) as (H500 & _ & Hreg);
    [discriminate | reflexivity |].
  exact (conj H500 Hreg).
Defined.

(** C3, as the spec has it, fails: user a has a registered child, [kill()]
    throws, and the stop request is answered 500 with the failure message,
    not with the stopped message. *)
Lemma stop_bot_surfaces_kill_failure :
  processes one_bot !! "a" = Some 0
  ∧ (stop_bot one_bot (Some "a") KillThrew).2 = mkResponse 500 msg_stop_failed
  ∧ (stop_bot one_bot (Some "a") KillThrew).2 ≠ send (msg_stopped "a")
  ∧ effects (stop_bot one_bot (Some "a") KillThrew).1
    = [Fork 0 "a"; Kill 0 KillThrew].
Proof. split_and!; [reflexivity | reflexivity | discriminate | reflexivity]. Qed.

Lemma stop_bot_registered_witness :
  (stop_bot one_bot (Some "a") (KillReturned false)).2
  = mkResponse 200 "🔴 Bot stopped for UID: a"
  ∧ processes (stop_bot one_bot (Some "a") (KillReturned false)).1
    = delete "a" (processes one_bot).
Proof.
  destruct (stop_bot_registered one_bot "a" 0 (KillReturned false))
    as (_ & _ & Hres); [discriminate | discriminate | reflexivity |].
  exact Hres.
Defined.

Lemma one_bot_plain_reachable : @plain_reachable small_runtime one_bot.
Proof.
  exists ∅, [PostStartBot (body_of "a" "[]") "t0" (KillReturned true)].
  split; reflexivity.
Qed.

Lemma exit_reaped_once_witness :
  ∃ w',
    @step small_runtime one_bot (ChildExit 0 (Some 1%Z) "t1") = Some (w', None)
    ∧ log_of w' "a"
      = Some ("📂 Logs started at t0" +:+ nl
              +:+ "🔴 Bot exited with code 1 at t1" +:+ nl)
    ∧ effects w' = [Fork 0 "a"; Emit "a" "🔴 Bot exited with code 1 at t1"]
    ∧ processes w' !! "a" = None.
Proof.
  destruct (@exit_reaped_once small_runtime one_bot 0 (mkChild "a" false)
              (Some 1%Z) "t1" one_bot_plain_reachable eq_refl eq_refl)
    as (w' & text & Hstep & Hold & Hnew & Heff & Hgone & _).
  exists w'. split_and!; [exact Hstep | | exact Heff | exact Hgone].
  vm_compute in Hold. injection Hold as <-. exact Hnew.
Defined.


(** C8, as the spec has it, fails: user a is started again while its first
    child runs.  When the first line of the second child is appended the
    exit of the first child has not been delivered, and afterwards the log
    holds a line of the first child and its exit marker between and after
    the lines of the second child. *)
Lemma restart_interleaves_generations :
  ∃ w1 w2,
    @run small_runtime (boot ∅) restart_events = Some w1
    ∧ processes w1 !! "a" = Some 1
    ∧ children w1 !! 0 = Some (mkChild "a" false)
    ∧ log_of w1 "a" = Some (session_marker "t1" +:+ "new 1" +:+ nl)
    ∧ @run small_runtime w1 overlap_events = Some w2
    ∧ log_of w2 "a"
      = Some (session_marker "t1" +:+ "new 1" +:+ nl +:+ "old 2" +:+ nl
              +:+ "new 2" +:+ nl +:+ exit_marker None "t2" +:+ nl).
Proof. eexists _, _. split_and!; vm_compute; reflexivity. Qed.

Lemma start_bot_kills_then_forks_witness :
  effects (@start_bot small_runtime one_bot (body_of "a" "{}") "t1"
             (KillReturned true)).1
  = [Fork 0 "a"; Kill 0 (KillReturned true); Fork 1 "a"]
  ∧ children (@start_bot small_runtime one_bot (body_of "a" "{}") "t1"
                (KillReturned true)).1 !! 0
    = Some (mkChild "a" false).
Proof.
  destruct (@start_bot_kills_then_forks small_runtime one_bot (body_of "a" "{}")
              "a" 0 (JObj []) "t1" (KillReturned true) one_bot_plain_reachable
              eq_refl eq_refl eq_refl eq_refl)
    as (_ & Heff & _ & _ & Hold & _).
  exact (conj Heff Hold).
Defined.


(** * More of the server *)

(** ** The count of active users *)

Lemma currentUsers_length_mono (disk1 disk2 : gmap string UserDir) :
  (∀ u, exists_appstate disk1 u = true → exists_appstate disk2 u = true) →
  length (currentUsers disk1) ≤ length (currentUsers disk2).
Proof.
  intros Hsub. apply submseteq_length, NoDup_submseteq.
  - apply NoDup_currentUsers.
  - intros u. rewrite !elem_of_currentUsers. apply Hsub.
Qed.

Lemma currentUsers_length_succ (disk1 disk2 : gmap string UserDir) (uid : string) :
  (∀ u, exists_appstate disk1 u = true →
        u = uid ∨ exists_appstate disk2 u = true) →
  length (currentUsers disk1) ≤ S (length (currentUsers disk2)).
Proof.
  intros Hsub.
  change (S (length (currentUsers disk2))) with (length (uid :: currentUsers disk2)).
  apply submseteq_length, NoDup_submseteq.
  - apply NoDup_currentUsers.
  - intros u. rewrite elem_of_cons, !elem_of_currentUsers. apply Hsub.
Qed.

Section Quota.
Context `{Runtime}.

(** What one event does to the question whether [u] is active: nothing, or
    [u] becomes active through a start for [u] that passed the limit test. *)
Lemma step_exists_appstate (w w' : World) (e : Event) (r : option Response)
    (u : string) :
  step w e = Some (w', r) →
  exists_appstate (users w') u = exists_appstate (users w) u
  ∨ (exists_appstate (users w) u = false
     ∧ exists_appstate (users w') u = true
     ∧ limit_reached (users w) u = false
     ∧ ∃ req now k, e = PostStartBot req now k ∧ admin req = Some u).
Proof.
  intros Hstep.
  destruct e as [req now k|uid k|uid|pid data|pid data|pid code now];
    simpl in Hstep.
  - unfold start_bot in Hstep. destruct (admin req) as [uid|] eqn:Hadm;
      [|simplify_eq; by left].
    destruct (_ || _); [simplify_eq; by left|].
    destruct (limit_reached (users w) uid) eqn:Hlim; [simplify_eq; by left|].
    destruct (_ ≫= _) as [obj|]; simplify_eq/=.
    + rewrite kill_previous_users. simpl.
      rewrite exists_appstate_write_session, exists_appstate_mkdir.
      case_decide as Hu; [|by left]. subst u.
      destruct (exists_appstate (users w) uid) eqn:Hex; [by left|].
      right. split_and!; eauto.
    + left. apply exists_appstate_mkdir.
  - pose proof (stop_bot_users w uid k) as Hu.
    destruct (stop_bot w uid k). simplify_eq/=. left. by rewrite Hu.
  - simplify_eq. by left.
  - destruct (children w !! pid); simplify_eq/=. left.
    apply exists_appstate_appendLog.
  - destruct (children w !! pid); simplify_eq/=. left.
    apply exists_appstate_appendLog.
  - destruct (children w !! pid) as [c|]; simplify_eq/=.
    destruct (child_exited c); simplify_eq/=. left.
    apply exists_appstate_appendLog.
Qed.

Lemma step_quota (w w' : World) (e : Event) (r : option Response) :
  step w e = Some (w', r) →
  length (currentUsers (users w'))
  ≤ MAX_USERS `max` length (currentUsers (users w)).
Proof.
  intros Hstep.
  assert (Hmono : (∀ u, exists_appstate (users w') u = true →
                        exists_appstate (users w) u = true) →
    length (currentUsers (users w'))
    ≤ MAX_USERS `max` length (currentUsers (users w))).
  { intros Hsub. etrans; [by apply currentUsers_length_mono|lia]. }
  destruct e as [req now k|uid k|uid|pid data|pid data|pid code now];
    try (apply Hmono; intros u' Hu';
         destruct (step_exists_appstate _ _ _ _ u' Hstep)
           as [Heq|(_ & _ & _ & ? & ? & ? & ? & _)]; [congruence | done]).
  destruct (admin req) as [u|] eqn:Hadm;
    [destruct (limit_reached (users w) u) eqn:Hlim;
       [|destruct (exists_appstate (users w) u) eqn:Hex]|];
    try (apply Hmono; intros u' Hu';
         destruct (step_exists_appstate _ _ _ _ u' Hstep)
           as [Heq|(? & ? & ? & ? & ? & ? & ? & ?)];
         [congruence | simplify_eq; congruence]).
  unfold limit_reached in Hlim.
  rewrite includes_currentUsers, Hex in Hlim. cbn [negb andb] in Hlim.
  apply Nat.leb_gt in Hlim.
  etrans; [apply (currentUsers_length_succ _ (users w) u)|lia].
  intros u' Hu'.
  destruct (step_exists_appstate _ _ _ _ u' Hstep)
    as [Heq|(_ & _ & _ & req' & now' & k' & Heq & Hadm')].
  - right. congruence.
  - left. simplify_eq. congruence.
Qed.

Lemma run_quota (evs : list Event) (w w' : World) :
  run w evs = Some w' →
  length (currentUsers (users w'))
  ≤ MAX_USERS `max` length (currentUsers (users w)).
Proof.
  revert w. induction evs as [|e evs IH]; intros w Hrun; simpl in Hrun.
  - simplify_eq. lia.
  - destruct (step w e) as [[w1 r]|] eqn:Hstep; simplify_eq/=.
    pose proof (step_quota _ _ _ _ Hstep). pose proof (IH _ Hrun). lia.
Qed.

(** X1.  While every start request names a plain uid, the count of active
    users never passes the limit: after any such events on a [users]
    directory it is at most the larger of [MAX_USERS] and the count the
    directory began with. *)
Theorem quota_never_exceeded (evs : list Event) (disk : gmap string UserDir)
    (w : World) :
  forallb plain_start evs = true →
  run (boot disk) evs = Some w →
  length (currentUsers (users w))
  ≤ MAX_USERS `max` length (currentUsers disk).
Proof. intros _ Hrun. apply (run_quota evs (boot disk) w Hrun). Qed.

(** X2.  No event takes a user off the list of active users: who has an
    [appstate.json] keeps it along every run, so a stop or the exit of the
    worker frees no slot, and the count never goes down. *)
Theorem active_stays_active (evs : list Event) (w w' : World) (uid : string) :
  run w evs = Some w' →
  exists_appstate (users w) uid = true →
  exists_appstate (users w') uid = true
  ∧ length (currentUsers (users w)) ≤ length (currentUsers (users w')).
Proof.
  intros Hrun Hact.
  assert (Hmono : ∀ u, exists_appstate (users w) u = true →
                       exists_appstate (users w') u = true).
  { clear uid Hact. revert w Hrun.
    induction evs as [|e evs IH]; intros w Hrun u Hu; simpl in Hrun.
    - by simplify_eq.
    - destruct (step w e) as [[w1 r]|] eqn:Hstep; simplify_eq/=.
      apply (IH _ Hrun).
      destruct (step_exists_appstate _ _ _ _ u Hstep) as [Heq|(? & ? & _)];
        congruence. }
  split; [by apply Hmono | by apply currentUsers_length_mono].
Qed.

(** X3.  Once the limit test fails for a uid it fails for good: whatever
    happens next, stops and exits included, a start for that uid is
    answered 403. *)
Theorem limit_is_permanent (evs : list Event) (w w' : World) (uid : string) :
  run w evs = Some w' →
  limit_reached (users w) uid = true →
  limit_reached (users w') uid = true
  ∧ ∀ req now k, admin req = Some uid →
      missing_json (appstate req) = false →
      uid ≠ EmptyString →
      start_bot w' req now k = (w', mkResponse 403 msg_limit).
Proof.
  intros Hrun Hlim.
  assert (Hkeep : limit_reached (users w') uid = true).
  { revert w Hrun Hlim.
    induction evs as [|e evs IH]; intros w Hrun Hlim; simpl in Hrun.
    - by simplify_eq.
    - destruct (step w e) as [[w1 r]|] eqn:Hstep; simplify_eq/=.
      apply (IH _ Hrun). unfold limit_reached in *.
      rewrite includes_currentUsers in *.
      apply andb_true_iff in Hlim as [Hex Hfull].
      apply negb_true_iff in Hex. apply Nat.leb_le in Hfull.
      apply andb_true_iff. split.
      + apply negb_true_iff.
        destruct (step_exists_appstate _ _ _ _ uid Hstep)
          as [Heq|(_ & _ & Hl & _)]; [congruence|].
        unfold limit_reached in Hl. rewrite includes_currentUsers, Hex in Hl.
        cbn [negb andb] in Hl. apply Nat.leb_gt in Hl. lia.
      + apply Nat.leb_le. etrans; [done|].
        apply currentUsers_length_mono. intros u Hu.
        destruct (step_exists_appstate _ _ _ _ u Hstep) as [Heq|(? & ? & _)];
          congruence. }
  split; [done|]. intros req now k Hadm Hmj Hne.
  unfold start_bot. by rewrite Hadm, Hmj, (missing_uid_Some _ Hne), Hkeep.
Qed.

End Quota.

(** ** The children and the entries of [processes] *)

(** Every way one event can end, with the state it leaves written out. *)
Ltac step_cases Hstep :=
  match type of Hstep with
  | step ?w ?e = Some _ =>
      destruct e as [req now k|uid k|uid|pid data|pid data|pid code now];
      simpl in Hstep;
      [ unfold start_bot in Hstep;
        destruct (admin req) as [uid|] eqn:Hadm;
        [ destruct (missing_json (appstate req) || missing_uid (Some uid))
            eqn:Hmiss;
          [ | destruct (limit_reached (users w) uid) eqn:Hlim;
              [ | destruct (appstate req ≫= decode_appstate) as [obj|] eqn:Hdec;
                  [ unfold fork_child, kill_previous in Hstep;
                    simpl in Hstep;
                    destruct (processes w !! uid) as [old|] eqn:Hold | ] ] ]
        | ]
      | unfold stop_bot in Hstep;
        destruct uid as [u|];
        [ destruct (missing_uid (Some u)) eqn:Hmiss;
          [ | destruct (processes w !! u) as [pid|] eqn:Hreg; [destruct k | ] ]
        | ]
      |
      | destruct (children w !! pid) as [c|] eqn:Hc
      | destruct (children w !! pid) as [c|] eqn:Hc
      | destruct (children w !! pid) as [c|] eqn:Hc; simpl in Hstep;
        [ destruct (child_exited c) eqn:Hex | ] ];
      simplify_eq/=
  end.

Section Handles.
Context `{Runtime}.

Lemma newest_step (w w' : World) (e : Event) (r : option Response) :
  consistent w →
  (∀ uid pid pid' c', processes w !! uid = Some pid →
     children w !! pid' = Some c' → child_admin c' = uid → pid' ≤ pid) →
  step w e = Some (w', r) →
  ∀ uid pid pid' c', processes w' !! uid = Some pid →
     children w' !! pid' = Some c' → child_admin c' = uid → pid' ≤ pid.
Proof.
  intros Hw Hnew Hstep.
  step_cases Hstep; intros uid0 pid0 pid' c' Hreg0 Hc' Hadm'; eauto.
  all: try (apply lookup_delete_Some in Hreg0 as [_ Hreg0]; eauto; fail).
  - apply lookup_app_Some in Hc' as [Hc'|[Hlen Hc']].
    + apply lookup_insert_Some in Hreg0 as [[<- <-]|[Hne Hreg0]]; [|eauto].
      apply lookup_lt_Some in Hc'. lia.
    + apply list_lookup_singleton_Some in Hc' as [Hpid <-]. simpl in Hadm'.
      subst uid0. rewrite lookup_insert_eq in Hreg0. simplify_eq. lia.
  - apply lookup_app_Some in Hc' as [Hc'|[Hlen Hc']].
    + apply lookup_insert_Some in Hreg0 as [[<- <-]|[Hne Hreg0]]; [|eauto].
      apply lookup_lt_Some in Hc'. lia.
    + apply list_lookup_singleton_Some in Hc' as [Hpid <-]. simpl in Hadm'.
      subst uid0. rewrite lookup_insert_eq in Hreg0. simplify_eq. lia.
  - apply lookup_delete_Some in Hreg0 as [Hne Hreg0].
    destruct (decide (pid = pid')) as [<-|Hne'].
    + rewrite list_lookup_insert_eq in Hc' by (by eapply lookup_lt_Some).
      by simplify_eq.
    + rewrite list_lookup_insert_ne in Hc' by done. eauto.
Qed.

Lemma newest_run (evs : list Event) (w w' : World) :
  consistent w →
  (∀ uid pid pid' c', processes w !! uid = Some pid →
     children w !! pid' = Some c' → child_admin c' = uid → pid' ≤ pid) →
  run w evs = Some w' →
  ∀ uid pid pid' c', processes w' !! uid = Some pid →
     children w' !! pid' = Some c' → child_admin c' = uid → pid' ≤ pid.
Proof.
  revert w. induction evs as [|e evs IH]; intros w Hw Hnew Hrun; simpl in Hrun.
  - by simplify_eq.
  - destruct (step w e) as [[w1 r]|] eqn:Hstep; simplify_eq/=.
    apply (IH w1); [by eapply consistent_step | by eapply newest_step | done].
Qed.

Lemma plain_children_step (w w' : World) (e : Event) (r : option Response) :
  plain_start e = true →
  step w e = Some (w', r) →
  (∀ pid c, children w !! pid = Some c → plain (child_admin c) = true) →
  ∀ pid c, children w' !! pid = Some c → plain (child_admin c) = true.
Proof.
  intros Hplain Hstep Hkids.
  step_cases Hstep; intros pid0 c0 Hc0; eauto.
  - rewrite Hadm in Hplain.
    apply lookup_app_Some in Hc0 as [Hc0|[_ Hc0]]; [eauto|].
    by apply list_lookup_singleton_Some in Hc0 as [_ <-].
  - rewrite Hadm in Hplain.
    apply lookup_app_Some in Hc0 as [Hc0|[_ Hc0]]; [eauto|].
    by apply list_lookup_singleton_Some in Hc0 as [_ <-].
  - destruct (decide (pid = pid0)) as [<-|Hne].
    + rewrite list_lookup_insert_eq in Hc0 by (by eapply lookup_lt_Some).
      simplify_eq. simpl. eauto.
    + rewrite list_lookup_insert_ne in Hc0 by done. eauto.
Qed.

Lemma plain_children (w : World) (pid : nat) (c : Child) :
  plain_reachable w →
  children w !! pid = Some c →
  plain (child_admin c) = true.
Proof.
  intros (disk & evs & Hplain & Hrun). revert pid c.
  assert (Hboot : ∀ pid c, children (boot disk) !! pid = Some c →
                           plain (child_admin c) = true).
  { intros pid c Hc. simpl in Hc. by rewrite lookup_nil in Hc. }
  revert Hplain Hrun Hboot. generalize (boot disk). clear disk.
  induction evs as [|e evs IH]; intros w0 Hplain Hrun Hkids; simpl in *.
  - by simplify_eq.
  - apply andb_true_iff in Hplain as [He Hplain].
    destruct (step w0 e) as [[w1 r]|] eqn:Hstep; simplify_eq/=.
    apply (IH w1 Hplain Hrun). by eapply plain_children_step.
Qed.

(** X4.  In every state the server reaches through start requests for plain
    uids, an entry of [processes] belongs to a plain uid and is a child that
    was forked for that very uid, whose exit has not been delivered, and
    which is the newest child of that uid; no child is registered under two
    uids. *)
Theorem registered_is_newest_live (w : World) (uid : string) (pid : nat) :
  plain_reachable w →
  processes w !! uid = Some pid →
  plain uid = true
  ∧ children w !! pid = Some (mkChild uid false)
  ∧ (∀ pid' c', children w !! pid' = Some c' → child_admin c' = uid →
       pid' ≤ pid)
  ∧ (∀ uid', processes w !! uid' = Some pid → uid' = uid).
Proof.
  intros Hplain Hreg.
  pose proof (plain_reachable_reachable w Hplain) as Hreach.
  pose proof (reachable_consistent w Hreach) as Hw.
  pose proof (registered_live w Hw uid pid Hreg) as Hlive.
  split_and!; [|done| |].
  - apply (plain_children w pid _ Hplain Hlive).
  - destruct Hreach as (disk & evs & Hrun). intros pid' c' Hc' Hadm'.
    eapply (newest_run evs (boot disk) w); eauto using consistent_boot.
    intros ? ? ? ? Hempty. simpl in Hempty. by rewrite lookup_empty in Hempty.
  - intros uid' Hreg'. pose proof (registered_live w Hw uid' pid Hreg') as Hl'.
    congruence.
Qed.

End Handles.

(** ** One user at a time *)

Lemma lookup_mkdir_ne (disk : gmap string UserDir) (uid u : string) :
  uid ≠ u → mkdir_if_missing disk uid !! u = disk !! u.
Proof.
  intros Hne. unfold mkdir_if_missing. destruct (disk !! uid); [done|].
  by rewrite lookup_insert_ne.
Qed.

Lemma lookup_appendLog_ne (disk : gmap string UserDir) (uid line u : string) :
  uid ≠ u → appendLog uid line disk !! u = disk !! u.
Proof.
  intros Hne. unfold appendLog. destruct (disk !! uid); [|done].
  by rewrite lookup_insert_ne.
Qed.

Lemma emitted_to_app (room : string) (effs1 effs2 : list Effect) :
  emitted_to room (effs1 ++ effs2)
  = emitted_to room effs1 +:+ emitted_to room effs2.
Proof.
  induction effs1 as [|[pid k|pid uid|r text] effs1 IH]; simpl; try done.
  destruct (String.eqb r room); [|done]. by rewrite IH, !append_assoc.
Qed.

Section Isolation.
Context `{Runtime}.

(** X5.  In a state reached through start requests for plain uids, an event
    about one user, if a start request then for a plain uid, leaves the
    directory and the [processes] entry of every other user as they were. *)
Theorem other_users_untouched (w w' : World) (e : Event)
    (r : option Response) (user : string) :
  plain_reachable w →
  plain_start e = true →
  step w e = Some (w', r) →
  event_uid w e ≠ Some user →
  users w' !! user = users w !! user
  ∧ processes w' !! user = processes w !! user.
Proof.
  intros _ _ Hstep. step_cases Hstep; intros Hne; try done.
  all: try (assert (uid ≠ user) by (by intros ->)).
  all: try (assert (u ≠ user) by (by intros ->)).
  all: try (assert (child_admin c ≠ user)
              by (intros <-; apply Hne; by rewrite Hc)).
  - unfold write_session.
    rewrite !lookup_insert_ne, lookup_mkdir_ne by done. auto.
  - unfold write_session.
    rewrite !lookup_insert_ne, lookup_mkdir_ne by done. auto.
  - rewrite lookup_mkdir_ne by done. auto.
  - rewrite lookup_delete_ne by done. auto.
  - rewrite lookup_appendLog_ne by done. auto.
  - rewrite lookup_appendLog_ne by done. auto.
  - rewrite lookup_appendLog_ne, lookup_delete_ne by done. auto.
Qed.

Lemma step_emitted (w w' : World) (e : Event) (r : option Response)
    (user text : string) :
  step w e = Some (w', r) →
  starts user e = false →
  log_of w user = Some text →
  ∃ new, effects w' = effects w ++ new
         ∧ log_of w' user = Some (text +:+ emitted_to user new).
Proof.
  intros Hstep. unfold log_of.
  assert (Hline : ∀ u line, users w !! user ≫= logs_txt = Some text →
    appendLog u line (users w) !! user ≫= logs_txt
    = Some (text +:+ emitted_to user [Emit u line])).
  { intros u0 line Ht. simpl. destruct (String.eqb_spec u0 user) as [->|Hne].
    - rewrite (logs_appendLog_same _ _ _ _ Ht). by rewrite append_nil_r.
    - rewrite logs_appendLog_other by done. by rewrite append_nil_r. }
  step_cases Hstep; intros Hno Ht;
    try (apply bool_decide_eq_false in Hno);
    try (exists []; rewrite app_nil_r, append_nil_r; done);
    try (eexists; split; [done|]; by apply Hline).
  - exists [Kill old k; Fork (length (children w)) uid].
    split; [by rewrite <- app_assoc|]. unfold write_session.
    rewrite lookup_insert_ne, logs_mkdir, append_nil_r by congruence. done.
  - exists [Fork (length (children w)) uid]. split; [done|].
    unfold write_session.
    rewrite lookup_insert_ne, logs_mkdir, append_nil_r by congruence. done.
  - exists []. by rewrite app_nil_r, append_nil_r, logs_mkdir.
  - exists [Kill pid (KillReturned delivered)]. by rewrite append_nil_r.
  - exists [Kill pid KillThrew]. by rewrite append_nil_r.
Qed.

(** X6.  The log file and the broadcast agree.  From a state reached through
    start requests for plain uids, over any events whose start requests are
    for plain uids and not for the uid, what is appended to the log of the
    uid is, text for text and in the same order, what was emitted to the
    room of the uid, a line feed after each text. *)
Theorem log_grows_by_what_was_emitted (evs : list Event) (w w' : World)
    (uid text : string) :
  plain_reachable w →
  forallb plain_start evs = true →
  run w evs = Some w' →
  forallb (λ e, negb (starts uid e)) evs = true →
  log_of w uid = Some text →
  ∃ new, effects w' = effects w ++ new
         ∧ log_of w' uid = Some (text +:+ emitted_to uid new).
Proof.
  intros _ _. revert w text.
  induction evs as [|e evs IH]; intros w text Hrun Hno Ht; simpl in *.
  - simplify_eq. exists []. by rewrite app_nil_r, append_nil_r.
  - apply andb_true_iff in Hno as [He Hno]. apply negb_true_iff in He.
    destruct (step w e) as [[w1 r]|] eqn:Hstep; simplify_eq/=.
    destruct (step_emitted _ _ _ _ _ _ Hstep He Ht) as (new1 & Heff1 & Ht1).
    destruct (IH _ _ Hrun Hno Ht1) as (new2 & Heff2 & Ht2).
    exists (new1 ++ new2). split.
    + by rewrite Heff2, Heff1, <- app_assoc.
    + by rewrite Ht2, emitted_to_app, append_assoc.
Qed.

End Isolation.

(** ** What a request does and does not do *)

Section Answers.
Context `{Runtime}.

(** X7.  In a state reached through start requests for plain uids, a POST
    /start-bot for a plain uid, or with no uid, forks a child exactly when
    it answers 200: then one child of the uid is added and registered.  With
    any other answer no child is forked or signalled, nothing is emitted,
    [processes] stays as it was, and no file of any user is written or
    reset. *)
Theorem start_bot_forks_iff_200 (w : World) (req : StartBody) (now : string)
    (k : KillOutcome) :
  plain_reachable w →
  plain_start (PostStartBot req now k) = true →
  (status (start_bot w req now k).2 = 200 →
   ∃ user, admin req = Some user
     ∧ children (start_bot w req now k).1 = children w ++ [mkChild user false]
     ∧ processes (start_bot w req now k).1 !! user = Some (length (children w)))
  ∧ (status (start_bot w req now k).2 ≠ 200 →
     children (start_bot w req now k).1 = children w
     ∧ processes (start_bot w req now k).1 = processes w
     ∧ effects (start_bot w req now k).1 = effects w
     ∧ ∀ u, log_of (start_bot w req now k).1 u = log_of w u
            ∧ exists_appstate (users (start_bot w req now k).1) u
              = exists_appstate (users w) u).
Proof.
  intros _ _.
  unfold start_bot. destruct (admin req) as [uid|] eqn:Hadm; [|by split].
  destruct (_ || _); [by split|].
  destruct (limit_reached _ _); [by split|].
  destruct (_ ≫= _) as [obj|]; simpl.
  - split; [intros _|done]. exists uid.
    rewrite kill_previous_children, kill_previous_processes. simpl.
    by rewrite lookup_insert_eq.
  - split; [done|intros _]. split_and!; try done. intros u.
    unfold log_of. simpl. by rewrite logs_mkdir, exists_appstate_mkdir.
Qed.

(** X8.  In a state reached through start requests for plain uids, a start
    for a plain uid whose [appstate] is not a string is never answered with
    the invalid-AppState error: the value is taken as it is.  When the
    answer is 200 the directory of the uid holds the value, serialised, as
    [appstate.json], the uid as [admin.txt], and the session marker as
    [logs.txt]. *)
Theorem start_bot_structured_appstate (w : World) (req : StartBody)
    (v : json) (now : string) (k : KillOutcome) :
  plain_reachable w →
  plain_start (PostStartBot req now k) = true →
  appstate req = Some v →
  (∀ s, v ≠ JStr s) →
  status (start_bot w req now k).2 ≠ 500
  ∧ (status (start_bot w req now k).2 = 200 →
     ∃ user, admin req = Some user
       ∧ users (start_bot w req now k).1 !! user
         = Some (mkUserDir (Some (JSON_stringify v)) (Some user)
                           (Some ("📂 Logs started at " +:+ now
                                  +:+ String (Ascii.ascii_of_nat 10)
                                        EmptyString)))).
Proof.
  intros _ _ Happ Hstr.
  assert (Hdec : appstate req ≫= decode_appstate = Some v).
  { rewrite Happ. simpl. destruct v; try done. by destruct (Hstr s). }
  unfold start_bot. rewrite Hdec. destruct (admin req) as [uid|]; [|done].
  destruct (_ || _); [done|]. destruct (limit_reached _ _); [done|]. simpl.
  split; [done|]. intros _. exists uid. split; [done|].
  rewrite kill_previous_users. simpl. unfold write_session.
  by rewrite lookup_insert_eq.
Qed.



(** X11.  What the server writes is what the worker reads.  After a start
    that was answered 200 the worker finds both files; it takes as its admin
    the uid trimmed, and as its appstate what [JSON.parse] makes of the
    serialised value.  A uid of blanks only passes the server and makes the
    worker end with exit code 1 at once. *)
Theorem worker_loads_what_server_wrote (w : World) (req : StartBody)
    (user : string) (obj : json) (now : string) (k : KillOutcome) :
  admin req = Some user →
  appstate req ≫= decode_appstate = Some obj →
  status (start_bot w req now k).2 = 200 →
  bot_load (users (start_bot w req now k).1 !! user)
  = (if String.eqb (trim (JSON_stringify obj)) EmptyString then None
     else appState ← JSON_parse (JSON_stringify obj);
          if String.eqb (trim user) EmptyString then None
          else Some (appState, trim user)).
Proof.
  intros Hadm Hdec H200.
  destruct (start_bot_200 _ _ _ _ _ Hadm H200) as (obj' & Hne & Hmj & Hlim & Hdec').
  rewrite (start_bot_ok _ _ _ _ _ _ Hadm Hne Hmj Hlim Hdec).
  unfold fork_child. simpl. rewrite kill_previous_users. simpl.
  unfold write_session. rewrite lookup_insert_eq. done.
Qed.

End Answers.

(** * More of the worker *)

(** ** [safeRetry] *)

Lemma safeRetry_loop_succeeds (fn : nat → option string) (desc : string)
    (attempts delayMs : nat) (todo i s : nat) :
  i + todo = attempts →
  i ≤ s < attempts →
  fn s = None →
  (∀ j, i ≤ j < s → fn j ≠ None) →
  let r := safeRetry_loop fn desc attempts delayMs todo i in
  r.1 = true
  ∧ attempts_made r.2 = S (s - i)
  ∧ sleeps_made r.2 = s - i
  ∧ lines_logged r.2 = (s - i) + (if decide (s = 0) then 0 else 1).
Proof.
  revert i. induction todo as [|todo IH]; intros i Hsum Hs Hok Hfail; [lia|].
  simpl. destruct (fn i) as [err|] eqn:Hi.
  - assert (i ≠ s) by congruence.
    destruct (IH (S i)) as (Hr & Ha & Hsl & Hl); [lia|lia|done| |].
    { intros j Hj. apply Hfail. lia. }
    assert ((i <? attempts - 1) = true) as -> by (apply Nat.ltb_lt; lia).
    simpl. unfold attempts_made, sleeps_made, lines_logged in *. simpl.
    rewrite Hr, Ha, Hsl, Hl. split_and!; [done|lia..].
  - assert (i = s) as ->.
    { destruct (decide (i = s)) as [|Hne]; [done|].
      destruct (Hfail i); [lia|done]. }
    rewrite Nat.sub_diag. destruct s as [|s]; simpl; [done|].
    by case_decide.
Qed.

Lemma safeRetry_loop_gives_up (fn : nat → option string) (desc : string)
    (attempts delayMs : nat) (todo i : nat) :
  i + todo = attempts →
  (∀ j, i ≤ j < attempts → fn j ≠ None) →
  let r := safeRetry_loop fn desc attempts delayMs todo i in
  r.1 = false
  ∧ attempts_made r.2 = todo
  ∧ sleeps_made r.2 = todo - 1
  ∧ lines_logged r.2 = S todo.
Proof.
  revert i. induction todo as [|todo IH]; intros i Hsum Hfail; [done|].
  simpl. destruct (fn i) as [err|] eqn:Hi; [|destruct (Hfail i); [lia|done]].
  destruct (IH (S i)) as (Hr & Ha & Hsl & Hl); [lia| |].
  { intros j Hj. apply Hfail. lia. }
  simpl. unfold attempts_made, sleeps_made, lines_logged in *.
  destruct (i <? attempts - 1) eqn:Hlt; simpl; rewrite Hr, Ha, Hsl, Hl.
  - apply Nat.ltb_lt in Hlt. split_and!; [done|lia..].
  - apply Nat.ltb_ge in Hlt. split_and!; [done|lia..].
Qed.

(** The first round that resolves, if one does before [n]. *)
Lemma first_resolved (fn : nat → option string) (n : nat) :
  (∃ s, s < n ∧ fn s = None ∧ ∀ j, j < s → fn j ≠ None)
  ∨ (∀ j, j < n → fn j ≠ None).
Proof.
  induction n as [|n [(s & Hs & Hok & Hfirst)|Hnone]].
  - right. lia.
  - left. exists s. split_and!; [lia|done..].
  - destruct (fn n) as [err|] eqn:Hn.
    + right. intros j Hj. destruct (decide (j = n)) as [->|]; [congruence|].
      apply Hnone. lia.
    + left. exists n. split_and!; [lia|done..].
Qed.

(** X12.  [safeRetry] returns true exactly when one of the first [attempts]
    calls of [fn] resolves, and it never calls [fn] more than [attempts]
    times. *)
Theorem safeRetry_true_iff (fn : nat → option string) (desc : string)
    (attempts delayMs : nat) :
  ((safeRetry fn desc attempts delayMs).1 = true
   ↔ ∃ i, i < attempts ∧ fn i = None)
  ∧ attempts_made (safeRetry fn desc attempts delayMs).2 ≤ attempts.
Proof.
  unfold safeRetry.
  destruct (first_resolved fn attempts) as [(s & Hs & Hok & Hfirst)|Hnone].
  - destruct (safeRetry_loop_succeeds fn desc attempts delayMs attempts 0 s)
      as (Hr & Ha & _); [lia|lia|done|intros j Hj; apply Hfirst; lia|].
    split; [|lia]. split; [eauto|done].
  - destruct (safeRetry_loop_gives_up fn desc attempts delayMs attempts 0)
      as (Hr & Ha & _); [lia|intros j Hj; apply Hnone; lia|].
    split; [|lia]. rewrite Hr. split; [done|].
    intros (i & Hi & Hok). by destruct (Hnone i Hi).
Qed.

(** X13.  When the call of round [s] is the first that resolves, [safeRetry]
    stops there: it has called [fn] [s + 1] times, waited once after each of
    the [s] failures, logged each failure, and logged the success only when
    it was not the first call. *)
Theorem safeRetry_stops_at_first_success (fn : nat → option string)
    (desc : string) (attempts delayMs : nat) (s : nat) :
  s < attempts →
  fn s = None →
  (∀ j, j < s → fn j ≠ None) →
  (safeRetry fn desc attempts delayMs).1 = true
  ∧ attempts_made (safeRetry fn desc attempts delayMs).2 = S s
  ∧ sleeps_made (safeRetry fn desc attempts delayMs).2 = s
  ∧ lines_logged (safeRetry fn desc attempts delayMs).2
    = s + (if decide (s = 0) then 0 else 1).
Proof.
  intros Hs Hok Hfirst. unfold safeRetry.
  destruct (safeRetry_loop_succeeds fn desc attempts delayMs attempts 0 s)
    as (Hr & Ha & Hsl & Hl); [lia|lia|done|intros j Hj; apply Hfirst; lia|].
  rewrite Nat.sub_0_r in *. done.
Qed.

(** X14.  When none of the first [attempts] calls resolves, [safeRetry]
    returns false after exactly [attempts] calls; it waits between the calls
    but not after the last one, and logs each failure and then the final
    line.  With [attempts = 0] it calls nothing and logs the final line. *)
Theorem safeRetry_gives_up (fn : nat → option string) (desc : string)
    (attempts delayMs : nat) :
  (∀ j, j < attempts → fn j ≠ None) →
  (safeRetry fn desc attempts delayMs).1 = false
  ∧ attempts_made (safeRetry fn desc attempts delayMs).2 = attempts
  ∧ sleeps_made (safeRetry fn desc attempts delayMs).2 = attempts - 1
  ∧ lines_logged (safeRetry fn desc attempts delayMs).2 = S attempts
  ∧ last (safeRetry fn desc attempts delayMs).2
    = Some (LogLine ("❌ " +:+ desc +:+ " failed after " +:+ pretty attempts
                     +:+ " attempts")).
Proof.
  intros Hnone. unfold safeRetry.
  destruct (safeRetry_loop_gives_up fn desc attempts delayMs attempts 0)
    as (Hr & Ha & Hsl & Hl); [lia|intros j Hj; apply Hnone; lia|].
  split_and!; try done.
  assert (Hlast : ∀ todo i, i + todo = attempts →
    (∀ j, i ≤ j < attempts → fn j ≠ None) →
    last (safeRetry_loop fn desc attempts delayMs todo i).2
    = Some (LogLine ("❌ " +:+ desc +:+ " failed after " +:+ pretty attempts
                     +:+ " attempts"))).
  { induction todo as [|todo IH]; intros i Hsum Hfail; [done|].
    simpl. destruct (fn i) as [err|] eqn:Hi; [|destruct (Hfail i); [lia|done]].
    simpl. specialize (IH (S i)).
    destruct (safeRetry_loop fn desc attempts delayMs todo (S i)) as [b steps]
      eqn:Hloop.
    simpl in *. rewrite !last_cons, last_app, IH; [done|lia|].
    intros j Hj. apply Hfail. lia. }
  apply Hlast; [lia|]. intros j Hj. apply Hnone. lia.
Qed.

(** ** The helpers that read an event *)

Lemma js_or_cases (a b : option json) :
  (js_or a b = a ∧ truthy_opt a = true) ∨ js_or a b = b.
Proof. unfold js_or. destruct (truthy_opt a); auto. Qed.

(** X15.  [extractMsgId] throws only on null.  On anything else it returns
    null or a truthy value, never undefined and never an empty string, zero
    or false; and a truthy [messageID] at the top of the event wins over
    every other place an id can sit in. *)
Theorem extractMsgId_result (ev : json) :
  (extractMsgId ev = None ↔ ev = JNull)
  ∧ (∀ v, extractMsgId ev = Some v → v = Some JNull ∨ truthy_opt v = true)
  ∧ (ev ≠ JNull → truthy_opt (field "messageID" ev) = true →
     extractMsgId ev = Some (field "messageID" ev)).
Proof.
  split_and!.
  - destruct ev; simpl; split; done.
  - intros v Hv.
    assert (Hchain : ∀ a b : option json,
      (b = Some JNull ∨ truthy_opt b = true) →
      js_or a b = Some JNull ∨ truthy_opt (js_or a b) = true).
    { intros a b Hb. destruct (js_or_cases a b) as [[-> Ha]| ->]; auto. }
    destruct ev; simpl in Hv; simplify_eq; repeat apply Hchain; auto.
  - intros Hnull Hid. destruct ev; try done; simpl in *.
    all: unfold js_or at 1; by rewrite Hid.
Qed.

(** X16.  A null [participantIDs] hides the count.  An info object that is
    a group by its [participantsCount] alone stops being one when a
    [participantIDs] field holding null is put in front: [Object.keys(null)]
    throws inside the try block and the function returns false. *)
Theorem isGroupThreadInfo_null_participantIDs
    (fields : list (string * json)) (c : Z) :
  assoc "userInfo" fields = None →
  assoc "participantIDs" fields = None →
  assoc "participantsCount" fields = Some (JNum c) →
  (2 < c)%Z →
  isGroupThreadInfo (Some (JObj fields)) = true
  ∧ isGroupThreadInfo (Some (JObj (("participantIDs", JNull) :: fields))) = false.
Proof.
  intros Hui Hids Hcount Hc.
  unfold isGroupThreadInfo, userInfo_test, participantIDs_test,
    participantsCount_test. simpl.
  rewrite Hui, Hids, Hcount. split; [|done]. by apply Z.ltb_lt.
Qed.

(** * The further properties on concrete runs *)

Lemma quota_never_exceeded_witness :
  ∃ w',
    @run small_runtime (boot full_disk)
      [ PostStartBot (body_of "new" "[]") "t0" KillThrew;
        PostStartBot (body_of "3" "{}") "t1" KillThrew;
        GetStopBot (Some "3") (KillReturned true);
        PostStartBot (body_of "new" "[]") "t2" KillThrew ] = Some w'
    ∧ length (currentUsers (users w'))
      ≤ MAX_USERS `max` length (currentUsers full_disk).
Proof.
  eexists. split; [vm_compute; reflexivity|].
  apply (@quota_never_exceeded small_runtime
           [ PostStartBot (body_of "new" "[]") "t0" KillThrew;
             PostStartBot (body_of "3" "{}") "t1" KillThrew;
             GetStopBot (Some "3") (KillReturned true);
             PostStartBot (body_of "new" "[]") "t2" KillThrew ]
           full_disk); [reflexivity|].
  vm_compute. reflexivity.
Defined.

Lemma active_stays_active_witness :
  ∃ w',
    @run small_runtime one_bot
      (GetStopBot (Some "a") (KillReturned true) :: session_events) = Some w'
    ∧ processes w' !! "a" = None
    ∧ exists_appstate (users w') "a" = true.
Proof.
  eexists. split; [vm_compute; reflexivity|]. split; [reflexivity|].
  apply (@active_stays_active small_runtime
           (GetStopBot (Some "a") (KillReturned true) :: session_events)
           one_bot _ "a"); [vm_compute; reflexivity | reflexivity].
Defined.

Lemma limit_is_permanent_witness :
  ∃ w',
    @run small_runtime (boot full_disk)
      [ PostStartBot (body_of "3" "{}") "t0" KillThrew;
        GetStopBot (Some "3") (KillReturned true);
        ChildExit 0 None "t1" ] = Some w'
    ∧ limit_reached (users w') "new" = true
    ∧ @start_bot small_runtime w' (body_of "new" "[]") "t2" KillThrew
      = (w', mkResponse 403 msg_limit).
Proof.
  eexists. split; [vm_compute; reflexivity|].
  destruct (@limit_is_permanent small_runtime
              [ PostStartBot (body_of "3" "{}") "t0" KillThrew;
                GetStopBot (Some "3") (KillReturned true);
                ChildExit 0 None "t1" ]
              (boot full_disk) _ "new" ltac:(vm_compute; reflexivity)
              ltac:(vm_compute; reflexivity))
    as [Hlim Hstart].
  split; [exact Hlim|].
  apply Hstart; [reflexivity | reflexivity | discriminate].
Defined.

Lemma registered_is_newest_live_witness :
  children one_bot !! 0 = Some (mkChild "a" false)
  ∧ ∀ uid', processes one_bot !! uid' = Some 0 → uid' = "a".
Proof.
  destruct (@registered_is_newest_live small_runtime one_bot "a" 0
              one_bot_plain_reachable eq_refl) as (_ & Hlive & _ & Hone).
  exact (conj Hlive Hone).
Defined.

Lemma other_users_untouched_witness :
  ∃ w',
    @step small_runtime one_bot (ChildStdout 0 "hello") = Some (w', None)
    ∧ users w' !! "b" = users one_bot !! "b"
    ∧ processes w' !! "b" = processes one_bot !! "b".
Proof.
  eexists. split; [reflexivity|].
  apply (@other_users_untouched small_runtime one_bot _
           (ChildStdout 0 "hello") None "b");
    [apply one_bot_plain_reachable | reflexivity | reflexivity | discriminate].
Defined.

Lemma log_grows_by_what_was_emitted_witness :
  ∃ w' new,
    @run small_runtime one_bot session_events = Some w'
    ∧ effects w' = effects one_bot ++ new
    ∧ log_of w' "a" = Some (session_marker "t0" +:+ emitted_to "a" new).
Proof.
  destruct (@log_grows_by_what_was_emitted small_runtime session_events one_bot
              (default one_bot (@run small_runtime one_bot session_events))
              "a" (session_marker "t0") one_bot_plain_reachable eq_refl
              ltac:(vm_compute; reflexivity) eq_refl eq_refl)
    as (new & Heff & Hlog).
  eexists _, new. split; [vm_compute; reflexivity|]. exact (conj Heff Hlog).
Defined.

Lemma start_bot_forks_iff_200_witness :
  children (@start_bot small_runtime one_bot (body_of "a" "{oops") "t1"
              KillThrew).1 = children one_bot
  ∧ ∃ user,
      children (@start_bot small_runtime one_bot (body_of "b" "[]") "t1"
                  KillThrew).1 = children one_bot ++ [mkChild user false].
Proof.
  split.
  - destruct (@start_bot_forks_iff_200 small_runtime one_bot
                (body_of "a" "{oops") "t1" KillThrew
                one_bot_plain_reachable eq_refl) as [_ Hno].
    destruct Hno as (Hkids & _); [discriminate | exact Hkids].
  - destruct (@start_bot_forks_iff_200 small_runtime one_bot
                (body_of "b" "[]") "t1" KillThrew
                one_bot_plain_reachable eq_refl) as [Hyes _].
    destruct Hyes as (user & _ & Hkids & _); [reflexivity|].
    exists user. exact Hkids.
Defined.

Lemma start_bot_structured_appstate_witness :
  status (@start_bot small_runtime (boot ∅)
            (mkStartBody (Some (JObj [])) (Some "a")) "t0" KillThrew).2 ≠ 500.
Proof.
  assert (Hboot : @plain_reachable small_runtime (boot ∅))
    by (exists ∅, []; split; reflexivity).
  destruct (@start_bot_structured_appstate small_runtime (boot ∅)
              (mkStartBody (Some (JObj [])) (Some "a")) (JObj []) "t0"
              KillThrew Hboot eq_refl eq_refl ltac:(discriminate)) as [H500 _].
  exact H500.
Defined.



Lemma worker_loads_what_server_wrote_witness :
  @bot_load small_runtime
    (users (@start_bot small_runtime (boot ∅) (body_of "a" "[]") "t0"
              KillThrew).1 !! "a")
  = Some (JArr [], "a")
  ∧ @bot_load small_runtime
      (users (@start_bot small_runtime (boot ∅) (body_of " " "[]") "t0"
                KillThrew).1 !! " ")
    = None.
Proof.
  assert (Ha : status (@start_bot small_runtime (boot ∅) (body_of "a" "[]")
                         "t0" KillThrew).2 = 200) by (vm_compute; reflexivity).
  assert (Hb : status (@start_bot small_runtime (boot ∅) (body_of " " "[]")
                         "t0" KillThrew).2 = 200) by (vm_compute; reflexivity).
  split.
  - rewrite (@worker_loads_what_server_wrote small_runtime (boot ∅)
               (body_of "a" "[]") "a" (JArr []) "t0" KillThrew
               eq_refl eq_refl Ha).
    reflexivity.
  - rewrite (@worker_loads_what_server_wrote small_runtime (boot ∅)
               (body_of " " "[]") " " (JArr []) "t0" KillThrew
               eq_refl eq_refl Hb).
    reflexivity.
Defined.

Lemma safeRetry_stops_at_first_success_witness :
  (safeRetry (λ i, if (i <? 2)%nat then Some "boom" else None) "SetTitle" 3 900).2
  = [ Attempt; LogLine "⚠️ SetTitle failed attempt 1: boom"; Sleep 900;
      Attempt; LogLine "⚠️ SetTitle failed attempt 2: boom"; Sleep 900;
      Attempt; LogLine "✅ SetTitle succeeded on attempt 3" ]
  ∧ (safeRetry (λ i, if (i <? 2)%nat then Some "boom" else None) "SetTitle" 3
       900).1 = true
  ∧ attempts_made
      (safeRetry (λ i, if (i <? 2)%nat then Some "boom" else None) "SetTitle" 3
         900).2 = 3.
Proof.
  split; [vm_compute; reflexivity|].
  destruct (safeRetry_stops_at_first_success
              (λ i, if (i <? 2)%nat then Some "boom" else None) "SetTitle" 3 900 2)
    as (Hr & Ha & _); [lia | reflexivity | |exact (conj Hr Ha)].
  intros j Hj. destruct j as [|[|j]]; [discriminate | discriminate | lia].
Defined.

Lemma safeRetry_gives_up_witness :
  (safeRetry (λ _, Some "boom") "SetTitle" 2 900).2
  = [ Attempt; LogLine "⚠️ SetTitle failed attempt 1: boom"; Sleep 900;
      Attempt; LogLine "⚠️ SetTitle failed attempt 2: boom";
      LogLine "❌ SetTitle failed after 2 attempts" ]
  ∧ (safeRetry (λ _, Some "boom") "SetTitle" 2 900).1 = false
  ∧ sleeps_made (safeRetry (λ _, Some "boom") "SetTitle" 2 900).2 = 1.
Proof.
  split; [vm_compute; reflexivity|].
  destruct (safeRetry_gives_up (λ _, Some "boom") "SetTitle" 2 900)
    as (Hr & _ & Hsl & _); [discriminate | exact (conj Hr Hsl)].
Defined.

Lemma isGroupThreadInfo_null_participantIDs_witness :
  isGroupThreadInfo (Some (JObj [("participantsCount", JNum 5)])) = true
  ∧ isGroupThreadInfo
      (Some (JObj [("participantIDs", JNull); ("participantsCount", JNum 5)]))
    = false.
Proof.
  apply (isGroupThreadInfo_null_participantIDs [("participantsCount", JNum 5)] 5);
    [reflexivity | reflexivity | reflexivity | lia].
Defined.
